(** * channel-safely: safety gating of channel designations

    A shallow embedding of the DFHack plugin [channel-safely] (the
    group-based revision, together with the registry scan of the older
    pairwise revision) and the properties of its component tracker,
    safety gate, job canceller, job registry and rescan driver. *)

From stdpp Require Import gmap list fin_maps fin_sets.

(** ** Data of the surrounding simulation (namespace [df]) *)

Module df.

(** Modelled from the spec: [df::coord] is declared by the simulation's
    headers, outside the sources; section 3 of the specification gives a
    tile position as an integer triple compared by equality. *)
Record coord := Coord { x : Z; y : Z; z : Z }.

(** The values of [df::tile_dig_designation]; [No] is the neutral value,
    [Default] the plain-dig request. *)
Inductive tile_dig_designation :=
| No | Default | UpDownStair | Channel | Ramp | DownStair | UpStair.

(** [df::job_type] restricted to what the plugin tests for; every other
    kind is an [OtherJob] with its numeric code. *)
Inductive job_type :=
| Dig | DigChannel | OtherJob (code : nat).

(** A block event: either a designation-priority overlay with its 16x16
    priority array, or an event of another type. *)
Inductive block_square_event :=
| designation_priority (priority : Z → Z → Z)
| other_event (code : nat).

(** [df::map_block]: the fields the plugin reads and writes. The 16x16
    arrays are functions of the two indices; callers check the range. *)
Record map_block := MapBlock {
  map_pos : coord;
  designation : Z → Z → tile_dig_designation;
  dig_marked : Z → Z → bool;
  designated : bool;
  block_events : list block_square_event
}.

(** [df::job]: [id] stands for the address of the job object. *)
Record job := Job { id : nat; jtype : job_type; pos : coord }.

End df.

#[global] Instance coord_eq_dec : EqDecision df.coord.
Proof. solve_decision. Defined.

#[global] Instance coord_countable : Countable df.coord.
Proof.
  apply (inj_countable' (λ c, (df.x c, df.y c, df.z c))
                        (λ t, df.Coord t.1.1 t.1.2 t.2)).
  by intros [].
Defined.

#[global] Instance designation_eq_dec : EqDecision df.tile_dig_designation.
Proof. solve_decision. Defined.

#[global] Instance job_type_eq_dec : EqDecision df.job_type.
Proof. solve_decision. Defined.

(** A [df::map_block*]: [None] is the null pointer, [Some b] the address of
    block [b] in the block store. *)
Abbreviation block_ptr := (option nat).

(** A group: a set of (position, block) pairs. *)
Abbreviation Group := (gset (df.coord * option nat)).

(** ** Neighbourhood *)

Definition above (tile : df.coord) : df.coord :=
  df.Coord (df.x tile) (df.y tile) (df.z tile + 1).

Definition getNeighbours (tile : df.coord) : list df.coord :=
  let '(df.Coord tx ty tz) := tile in
  [ df.Coord (tx - 1) (ty - 1) tz;
    df.Coord tx       (ty - 1) tz;
    df.Coord (tx + 1) (ty - 1) tz;
    df.Coord (tx - 1) ty       tz;
    df.Coord (tx + 1) ty       tz;
    df.Coord (tx - 1) (ty + 1) tz;
    df.Coord tx       (ty + 1) tz;
    df.Coord (tx + 1) (ty + 1) tz ].

(** ** Component tracker ([GroupData]) *)

(** [groups] is the arena of group slots, [groups_map] the index from a
    position to its slot id, [free_spots] the pool of vacated slot ids. *)
Record GroupData := mkGroupData {
  groups : list Group;
  groups_map : gmap df.coord nat;
  free_spots : gset nat
}.

Definition GroupData_empty : GroupData := mkGroupData [] ∅ ∅.

(** Modelled from the spec: [GroupData::find] is declared in
    channel-safely.h, which is not part of the sources. Section 4.2
    describes it as the lookup of a tile's group through the group index;
    the result is the group stored in the indexed slot, or nothing. *)
Definition find (gd : GroupData) (tile : df.coord) : option Group :=
  i ← groups_map gd !! tile; groups gd !! i.

(** [is_group_ready]: the loop over the members of [below_group], leaving
    with [false] at the first member whose overlying tile is in a non-empty
    group. *)
Fixpoint is_group_ready_loop (gd : GroupData)
    (tiles : list (df.coord * option nat)) : bool :=
  match tiles with
  | [] => true
  | group_tile :: rest =>
      match find gd (above group_tile.1) with
      | Some g => if negb (bool_decide (g = ∅)) then false
                  else is_group_ready_loop gd rest
      | None => is_group_ready_loop gd rest
      end
  end.

Definition is_group_ready (gd : GroupData) (below_group : Group) : bool :=
  is_group_ready_loop gd (elements below_group).

(** State of the neighbour loop of [GroupData::add]: [host] is [None] while
    [populated] is false ([group_index] = -1), and the slot id once a host
    was found. *)
Record scan := mkScan {
  host : option nat;
  sgroups : list Group;
  sfree : gset nat
}.

(** One iteration of the neighbour loop. A slot id beyond the arena makes
    the dereference undefined: the step has no result. *)
Definition visit_neighbour (gmap_ : gmap df.coord nat) (st : scan)
    (neighbour : df.coord) : option scan :=
  match gmap_ !! neighbour with
  | None => Some st
  | Some i =>
      group ← sgroups st !! i;
      match host st with
      | None => Some (mkScan (Some i) (sgroups st) (sfree st))
      | Some h =>
          if decide (h ≠ i) then
            hostg ← sgroups st !! h;
            Some (mkScan (Some h)
                    (<[i := ∅]> (<[h := hostg ∪ group]> (sgroups st)))
                    ({[i]} ∪ sfree st))
          else Some st
      end
  end.

Fixpoint visit_neighbours (gmap_ : gmap df.coord nat)
    (neighbours : list df.coord) (st : scan) : option scan :=
  match neighbours with
  | [] => Some st
  | n :: rest => st' ← visit_neighbour gmap_ st n; visit_neighbours gmap_ rest st'
  end.

(** The closing loop of [add]: every member of the host group is erased
    from the index and entered again with the host slot id. *)
Definition refresh_index (members : list (df.coord * option nat))
    (group_index : nat) (m : gmap df.coord nat) : gmap df.coord nat :=
  foldl (λ acc pair, <[pair.1 := group_index]> (delete pair.1 acc)) m members.

(** Choice of the slot for a tile without indexed neighbour: a free slot
    when the pool has one, a new slot at the end of the arena otherwise. *)
Definition choose_slot (st : scan) : nat * list Group * gset nat :=
  match host st with
  | Some h => (h, sgroups st, sfree st)
  | None =>
      match head (elements (sfree st)) with
      | Some i => (i, sgroups st, sfree st ∖ {[i]})
      | None => (length (sgroups st), sgroups st ++ [∅], sfree st)
      end
  end.

Definition add (world_pos : df.coord) (block : option nat)
    (gd : GroupData) : option GroupData :=
  match groups_map gd !! world_pos with
  | Some _ => Some gd
  | None =>
      st ← visit_neighbours (groups_map gd) (getNeighbours world_pos)
             (mkScan None (groups gd) (free_spots gd));
      let '(group_index, gs, fr) := choose_slot st in
      g ← gs !! group_index;
      let g' := g ∪ {[ (world_pos, block) ]} in
      Some (mkGroupData (<[group_index := g']> gs)
              (refresh_index (elements g') group_index (groups_map gd))
              fr)
  end.

(** ** Loops whose body can be undefined *)

(** [for_each body l s] runs [body] on the elements of [l] in order,
    threading the state; it has no result as soon as one iteration has
    none (a null or dangling pointer was dereferenced, or an array was
    indexed out of range). *)
Fixpoint for_each {A S : Type} (body : A → S → option S) (l : list A)
    (s : S) : option S :=
  match l with
  | [] => Some s
  | a :: rest => s' ← body a s; for_each body rest s'
  end.

(** ** The grid adapter, the job source and the plugin state *)

(** What the plugin asks of the simulation's [Maps] and [World] modules
    during one callback. Blocks are named by their address in the block
    store. *)
Record Maps := mkMaps {
  isFortressMode : bool;
  IsValid : bool;
  getSize : Z * Z * Z;
  getBlock : Z → Z → Z → option nat;
  getTileBlock : df.coord → option nat
}.

(** The static locals [getMapSize] and the three cached extents. *)
Record extents := mkExtents {
  getMapSize : bool;
  size_x : Z;
  size_y : Z;
  size_z : Z
}.

(** Modelled from the spec: the members of [ChannelManager] are declared in
    channel-safely.h, which is not part of the sources. Following section 3,
    the manager owns the component tracker and the job registry, a map from
    a position to the one job registered there (a job is named by its
    address); the tracker's [jobs] is that same registry. *)
Record ChannelManager := mkChannelManager {
  cm_groups : GroupData;
  cm_jobs : gmap df.coord nat
}.

Record State := mkState {
  enabled : bool;
  blocks : gmap nat df.map_block;
  job_list : list df.job;
  manager : ChannelManager;
  md_extents : extents;
  fb_extents : extents
}.

Definition with_blocks (bs : gmap nat df.map_block) (st : State) : State :=
  mkState (enabled st) bs (job_list st) (manager st) (md_extents st) (fb_extents st).

Definition with_job_list (jl : list df.job) (st : State) : State :=
  mkState (enabled st) (blocks st) jl (manager st) (md_extents st) (fb_extents st).

Definition with_manager (m : ChannelManager) (st : State) : State :=
  mkState (enabled st) (blocks st) (job_list st) m (md_extents st) (fb_extents st).


Definition with_fb_extents (e : extents) (st : State) : State :=
  mkState (enabled st) (blocks st) (job_list st) (manager st) (md_extents st) e.

(** Integer conversions of the source. *)
Definition to_uint16 (n : Z) : Z := (n `mod` 2 ^ 16)%Z.

(** An index of a 16-element array. *)
Definition in_array (i : Z) : bool := bool_decide (0 ≤ i < 16)%Z.

Definition upd2 {A : Type} (f : Z → Z → A) (i j : Z) (v : A) : Z → Z → A :=
  λ i' j', if bool_decide (i' = i ∧ j' = j) then v else f i' j'.

Definition set_designation (i j : Z) (d : df.tile_dig_designation)
    (blk : df.map_block) : df.map_block :=
  df.MapBlock (df.map_pos blk) (upd2 (df.designation blk) i j d)
    (df.dig_marked blk) (df.designated blk) (df.block_events blk).

Definition set_dig_marked (i j : Z) (v : bool) (blk : df.map_block) : df.map_block :=
  df.MapBlock (df.map_pos blk) (df.designation blk)
    (upd2 (df.dig_marked blk) i j v) (df.designated blk) (df.block_events blk).

Definition set_designated (v : bool) (blk : df.map_block) : df.map_block :=
  df.MapBlock (df.map_pos blk) (df.designation blk) (df.dig_marked blk) v
    (df.block_events blk).

(** ** Predicates on jobs and designations *)

Definition is_dig (job : df.job) : bool :=
  bool_decide (df.jtype job = df.Dig).

Definition is_channel (job : df.job) : bool :=
  bool_decide (df.jtype job = df.DigChannel).

Definition is_channel_designation (d : df.tile_dig_designation) : bool :=
  bool_decide (d = df.Channel).

(** ** Jobs *)

(** Reading through a [df::job*]: the job object with that address in the
    simulation's job list; a pointer to a removed job has none. *)
Definition deref_job (jl : list df.job) (job : nat) : option df.job :=
  head (filter (λ j, df.id j = job) jl).

(** Modelled from the spec: [Job::removeJob] belongs to the simulation's
    library; section 6 gives it as the removal of the job from the job
    list. *)
Definition removeJob (job : nat) (jl : list df.job) : list df.job :=
  filter (λ j, df.id j ≠ job) jl.

(** [cancelJob]: [None] is the null pointer. *)
Definition cancelJob (env : Maps) (job : option nat) (st : State) : option State :=
  match job with
  | None => Some st
  | Some j =>
      jb ← deref_job (job_list st) j;
      job_block ← getTileBlock env (df.pos jb);
      blk ← blocks st !! job_block;
      let x := to_uint16 (Z.rem (df.x (df.pos jb)) 16) in
      let y := to_uint16 (Z.rem (df.y (df.pos jb)) 16) in
      if in_array x && in_array y then
        let d := if is_channel jb then df.Channel else df.Default in
        Some (with_job_list (removeJob j (job_list st))
               (with_blocks (<[job_block := set_designation x y d blk]> (blocks st)) st))
      else None
  end.

(** [jobs.emplace]: an entry is added only when the key has none. *)
Definition emplace (k : df.coord) (v : nat) (m : gmap df.coord nat) : gmap df.coord nat :=
  match m !! k with
  | Some _ => m
  | None => <[k := v]> m
  end.

(** [DigJobs::read]: the registry built by one pass over the job list. *)
Definition DigJobs_read (jl : list df.job) : gmap df.coord nat :=
  foldl (λ jobs job, if is_channel job then emplace (df.pos job) (df.id job) jobs
                     else jobs) ∅ jl.

(** [DigJobs::cancel_job]. *)
Definition cancel_job (env : Maps) (pos : df.coord) (st : State) : option State :=
  match cm_jobs (manager st) !! pos with
  | Some job => cancelJob env (Some job) st
  | None => Some st
  end.

(** [ChannelManager::find_dig_jobs] of the pairwise revision: the entries
    (depth layer, job) it emplaces, in list order. *)
Definition find_dig_jobs (jl : list df.job) : list (Z * nat) :=
  (λ job, (df.z (df.pos job), df.id job))
    <$> filter (λ job, is_dig job || is_channel job = true) jl.

(** ** Safety gate *)

(** The two outcomes written by [manage_safety] for block [b] at the local
    indices [lx], [ly]. *)
Definition mark_ready (b : nat) (lx ly : Z) (st : State) : State :=
  with_blocks (alter (λ blk, set_designated true (set_dig_marked lx ly false blk)) b
                 (blocks st)) st.

Definition mark_unsafe (b : nat) (lx ly : Z) (st : State) : State :=
  with_blocks (alter (set_dig_marked lx ly true) b (blocks st)) st.

(** The loop of [manage_safety] over the events of the block. *)
Fixpoint safety_events (env : Maps) (b : nat) (lx ly : Z) (tile : df.coord)
    (group : Group) (events : list df.block_square_event) (st : State)
    : option State :=
  match events with
  | [] => Some st
  | df.designation_priority priority :: rest =>
      if (priority lx ly <? 6000)%Z then
        if is_group_ready (cm_groups (manager st)) group then
          safety_events env b lx ly tile group rest (mark_ready b lx ly st)
        else
          st' ← cancel_job env tile (mark_unsafe b lx ly st);
          safety_events env b lx ly tile group rest st'
      else safety_events env b lx ly tile group rest st
  | df.other_event _ :: rest => safety_events env b lx ly tile group rest st
  end.

(** [ChannelManager::manage_safety]. *)
Definition manage_safety (env : Maps) (block : option nat)
    (local tile tile_above : df.coord) (st : State) : option State :=
  match find (cm_groups (manager st)) tile with
  | None => Some st
  | Some group =>
      b ← block;
      blk ← blocks st !! b;
      if in_array (df.x local) && in_array (df.y local) then
        safety_events env b (df.x local) (df.y local) tile group
          (df.block_events blk) st
      else None
  end.

(** ** Rebuild of the tracker *)

(** The guarded query of the extents: only the first call asks the grid. *)
Definition capture (env : Maps) (e : extents) : extents :=
  if getMapSize e then e
  else let '(sx, sy, sz) := getSize env in mkExtents true sx sy sz.

Definition foreach_tile (blk : df.map_block) (b : nat) (z : Z)
    (gd : GroupData) : option GroupData :=
  for_each (λ local_x,
    for_each (λ local_y gd',
      if is_channel_designation (df.designation blk local_x local_y) then
        add (df.Coord (df.x (df.map_pos blk) + local_x)
                      (df.y (df.map_pos blk) + local_y) z) (Some b) gd'
      else Some gd') (seqZ 0 16)) (seqZ 0 16) gd.

Definition foreach_block (env : Maps) (bs : gmap nat df.map_block)
    (e : extents) (gd : GroupData) : option GroupData :=
  for_each (λ ix,
    for_each (λ iy,
      for_each (λ iz gd',
        match getBlock env ix iy iz with
        | Some b => blk ← bs !! b; foreach_tile blk b iz gd'
        | None => Some gd'
        end) (reverse (seqZ 0 (size_z e)))) (seqZ 0 (size_y e)))
    (seqZ 0 (size_x e)) gd.

(** [GroupData::read]. *)
Definition GroupData_read (env : Maps) (st : State) : option State :=
  let e := capture env (fb_extents st) in
  gd1 ← foreach_block env (blocks st) e (cm_groups (manager st));
  let jobs := DigJobs_read (job_list st) in
  gd2 ← for_each (λ map_entry gd,
           job ← deref_job (job_list st) map_entry.2;
           if is_channel job then
             add map_entry.1 (getTileBlock env (df.pos job)) gd
           else Some gd) (map_to_list jobs) gd1;
  Some (with_fb_extents e (with_manager (mkChannelManager gd2 jobs) st)).


(** ** Rescan and job start *)

Definition local_of (p : df.coord) : df.coord :=
  df.Coord (Z.rem (df.x p) 16) (Z.rem (df.y p) 16) (df.z p).



(** [onStart]; [job_ptr] is the address handed over by the event. *)
Definition onStart (env : Maps) (job_ptr : nat) (st : State) : option State :=
  if enabled st && isFortressMode env && IsValid env then
    job ← deref_job (job_list st) job_ptr;
    if is_dig job || is_channel job then
      let local := local_of (df.pos job) in
      let above_ := above (df.pos job) in
      let block := getTileBlock env (df.pos job) in
      manage_safety env block local (df.pos job) above_ st
    else Some st
  else Some st.

Definition wf (gd : GroupData) : Prop :=
  (∀ p i, groups_map gd !! p = Some i →
          ∃ g b, groups gd !! i = Some g ∧ (p, b) ∈ g) ∧
  (∀ i g p b, groups gd !! i = Some g → (p, b) ∈ g →
              groups_map gd !! p = Some i) ∧
  (∀ i, i ∈ free_spots gd → groups gd !! i = Some ∅).

Definition adjacent_slots (gd : GroupData) (p : df.coord) : list nat :=
  omap (λ n, groups_map gd !! n) (getNeighbours p).

Definition tracked_tiles (gs : list Group) : nat := sum_list (size <$> gs).

Definition visit_slot (st : scan) (i : nat) : option scan :=
  group ← sgroups st !! i;
  match host st with
  | None => Some (mkScan (Some i) (sgroups st) (sfree st))
  | Some h =>
      if decide (h ≠ i) then
        hostg ← sgroups st !! h;
        Some (mkScan (Some h)
                (<[i := ∅]> (<[h := hostg ∪ group]> (sgroups st)))
                ({[i]} ∪ sfree st))
      else Some st
  end.

Definition merged (G0 : list Group) (F0 : gset nat) (h : nat) (D : gset nat)
    (st : scan) : Prop :=
  host st = Some h ∧ length (sgroups st) = length G0 ∧ h ∉ D ∧
  (∃ Gh, sgroups st !! h = Some Gh ∧
         ∀ q, q ∈ Gh ↔ ∃ i, (i = h ∨ i ∈ D) ∧ q ∈ G0 !!! i) ∧
  (∀ i, i ∈ D → sgroups st !! i = Some ∅) ∧
  (∀ j, j ≠ h → j ∉ D → sgroups st !! j = G0 !! j) ∧
  sfree st = D ∪ F0 ∧
  tracked_tiles (sgroups st) = tracked_tiles G0.

Definition pairwise_disjoint (G0 : list Group) : Prop :=
  ∀ i j q, i ≠ j → q ∈ G0 !!! i → q ∉ G0 !!! j.

(** What [add] leaves behind for a tile that was not indexed: a slot
    [gi] holding the union [G] of the adjacent groups, the other adjacent
    slots emptied and pooled, everything else as before. *)
Definition add_outcome (gd : GroupData) (p : df.coord) (blk : option nat)
    (gd' : GroupData) (gi : nat) (G : Group) : Prop :=
  let A : gset nat := list_to_set (adjacent_slots gd p) in
  groups gd' !! gi = Some (G ∪ {[(p, blk)]}) ∧
  (∀ q, q ∈ G ↔ ∃ i, i ∈ A ∧ q ∈ groups gd !!! i) ∧
  (∀ j, j ≠ gi → (j ∈ A → groups gd' !! j = Some ∅) ∧
                 (j ∉ A → groups gd' !! j = groups gd !! j)) ∧
  (head (adjacent_slots gd p) = Some gi ∨
   (adjacent_slots gd p = [] ∧
    (groups gd !! gi = Some ∅ ∨ groups gd !! gi = None))) ∧
  (∀ i, i ∈ free_spots gd' ↔ i ≠ gi ∧ (i ∈ free_spots gd ∨ i ∈ A)) ∧
  (∀ q, groups_map gd' !! q =
        if decide (q ∈ (elements (G ∪ {[(p, blk)]})).*1) then Some gi
        else groups_map gd !! q) ∧
  tracked_tiles (groups gd') = tracked_tiles (groups gd) + 1.

Definition tile (a b c : Z) : df.coord := df.Coord a b c.

Definition two_groups : GroupData :=
  mkGroupData [ {[ (tile 0 0 5, Some 0) ]}; {[ (tile 2 0 5, Some 0) ]} ]
              (<[tile 2 0 5 := 1]> {[ tile 0 0 5 := 0 ]}) ∅.

Definition indexed (gd : GroupData) (q : df.coord) : Prop :=
  is_Some (groups_map gd !! q).

Definition grows (gd gd' : GroupData) : Prop :=
  ∀ q, indexed gd q → indexed gd' q.

Definition in_extents (e : extents) (p : df.coord) : Prop :=
  (0 ≤ df.x p < 16 * size_x e ∧ 0 ≤ df.y p < 16 * size_y e ∧
   0 ≤ df.z p < size_z e)%Z.

Definition tile_designation (env : Maps) (bs : gmap nat df.map_block)
    (p : df.coord) : option df.tile_dig_designation :=
  b ← getTileBlock env p;
  blk ← bs !! b;
  Some (df.designation blk (Z.rem (df.x p) 16) (Z.rem (df.y p) 16)).

Definition grid_consistent (env : Maps) (bs : gmap nat df.map_block)
    (e : extents) : Prop :=
  (∀ ix iy iz b,
     (0 ≤ ix < size_x e)%Z → (0 ≤ iy < size_y e)%Z → (0 ≤ iz < size_z e)%Z →
     getBlock env ix iy iz = Some b →
     ∃ blk, bs !! b = Some blk ∧
            df.x (df.map_pos blk) = (16 * ix)%Z ∧
            df.y (df.map_pos blk) = (16 * iy)%Z) ∧
  (∀ p, in_extents e p →
        getTileBlock env p = getBlock env (df.x p `div` 16) (df.y p `div` 16) (df.z p)).

(** The tiles [foreach_tile] visits in a block: the channel designations of
    its 16x16 array, placed at the block's position on layer [z]. *)
Definition block_channels (blk : df.map_block) (z : Z) (q : df.coord) : Prop :=
  ∃ lx ly, (0 ≤ lx < 16)%Z ∧ (0 ≤ ly < 16)%Z ∧
           df.designation blk lx ly = df.Channel ∧
           q = df.Coord (df.x (df.map_pos blk) + lx) (df.y (df.map_pos blk) + ly) z.

Definition grid_channels (env : Maps) (bs : gmap nat df.map_block)
    (e : extents) (q : df.coord) : Prop :=
  ∃ ix iy iz b blk,
    (0 ≤ ix < size_x e)%Z ∧ (0 ≤ iy < size_y e)%Z ∧ (0 ≤ iz < size_z e)%Z ∧
    getBlock env ix iy iz = Some b ∧ bs !! b = Some blk ∧
    block_channels blk iz q.

Definition blocks_valid (env : Maps) (bs : gmap nat df.map_block)
    (e : extents) : Prop :=
  ∀ ix iy iz b,
    (0 ≤ ix < size_x e)%Z → (0 ≤ iy < size_y e)%Z → (0 ≤ iz < size_z e)%Z →
    getBlock env ix iy iz = Some b → is_Some (bs !! b).

(** The groups and index after a rebuild partition what they track. *)
Definition partitioned (gd : GroupData) : Prop :=
  ∀ i j gi gj p b b',
    groups gd !! i = Some gi → groups gd !! j = Some gj →
    (p, b) ∈ gi → (p, b') ∈ gj → i = j.

Definition in_group (gd : GroupData) (p : df.coord) (i : nat) : Prop :=
  ∃ g b, groups gd !! i = Some g ∧ (p, b) ∈ g.

(** A one-chunk map without designation, and a two-chunk map whose second
    chunk holds one channel designation. *)
Definition plain_block (mp : df.coord) : df.map_block :=
  df.MapBlock mp (λ _ _, df.No) (λ _ _, false) false [].

Definition channel_block (mp : df.coord) (lx ly : Z) : df.map_block :=
  set_designation lx ly df.Channel (plain_block mp).

Definition row_map (n : Z) : Maps :=
  mkMaps true true (n, 1%Z, 1%Z)
    (λ ix iy iz, if bool_decide (0 ≤ ix < n ∧ iy = 0 ∧ iz = 0)%Z
                 then Some (Z.to_nat ix) else None)
    (λ p, if bool_decide (0 ≤ df.x p < 16 * n ∧ 0 ≤ df.y p < 16 ∧ df.z p = 0)%Z
          then Some (Z.to_nat (df.x p `div` 16)) else None).

Definition no_extents : extents := mkExtents false 0 0 0.

Definition fresh_state (bs : gmap nat df.map_block) (jl : list df.job) : State :=
  mkState true bs jl (mkChannelManager GroupData_empty ∅) no_extents no_extents.

Definition small_map_blocks : gmap nat df.map_block :=
  {[ 0 := plain_block (tile 0 0 0) ]}.

Definition wide_map_blocks : gmap nat df.map_block :=
  <[ 1 := channel_block (tile 16 0 0) 0 0 ]> {[ 0 := plain_block (tile 0 0 0) ]}.

(** The event counts as a priority overlay that leaves the tile under
    management. *)
Definition eligible (lx ly : Z) (ev : df.block_square_event) : bool :=
  match ev with
  | df.designation_priority priority => (priority lx ly <? 6000)%Z
  | df.other_event _ => false
  end.

Definition is_priority (ev : df.block_square_event) : bool :=
  match ev with
  | df.designation_priority _ => true
  | df.other_event _ => false
  end.


(** What no step of the safety gate touches. *)
Definition same_plugin_state (st st' : State) : Prop :=
  enabled st' = enabled st ∧ manager st' = manager st ∧
  md_extents st' = md_extents st ∧ fb_extents st' = fb_extents st.



(** ** Concrete grids and states *)

Definition column_map (n : Z) : Maps :=
  mkMaps true true (1%Z, 1%Z, n)
    (λ ix iy iz, if bool_decide (ix = 0 ∧ iy = 0 ∧ 0 ≤ iz < n)%Z
                 then Some (Z.to_nat iz) else None)
    (λ p, if bool_decide (0 ≤ df.x p < 16 ∧ 0 ≤ df.y p < 16 ∧ 0 ≤ df.z p < n)%Z
          then Some (Z.to_nat (df.z p)) else None).

Definition priority_overlay (v : Z) : df.block_square_event :=
  df.designation_priority (λ _ _, v).

(** A block whose tile (0, 0) carries designation [d] and mark [m]. *)
Definition corner_block (mp : df.coord) (d : df.tile_dig_designation) (m : bool)
    (events : list df.block_square_event) : df.map_block :=
  df.MapBlock mp (upd2 (λ _ _, df.No) 0 0 d) (upd2 (λ _ _, false) 0 0 m) false events.

Definition channel_job : df.job := df.Job 7 df.DigChannel (tile 0 0 0).

(** One channel designation, marked, in a chunk without priority overlay. *)
Definition overlayless_blocks : gmap nat df.map_block :=
  {[ 0 := corner_block (tile 0 0 0) df.Channel true [] ]}.

(** One channel designation with a job, marked, nothing above. *)
Definition ready_blocks : gmap nat df.map_block :=
  <[ 1 := plain_block (tile 0 0 1) ]>
    {[ 0 := corner_block (tile 0 0 0) df.Channel true [priority_overlay 0] ]}.

(** A channel job on a tile that no longer carries its designation, below
    a channel designation. *)
Definition blocked_blocks : gmap nat df.map_block :=
  <[ 1 := corner_block (tile 0 0 1) df.Channel false [] ]>
    {[ 0 := corner_block (tile 0 0 0) df.No false [priority_overlay 0] ]}.

Definition lone_group : GroupData :=
  mkGroupData [ {[ (tile 0 0 0, Some 0) ]} ] {[ tile 0 0 0 := 0 ]} ∅.

Definition stacked_groups : GroupData :=
  mkGroupData [ {[ (tile 0 0 1, Some 1) ]}; {[ (tile 0 0 0, Some 0) ]} ]
              (<[ tile 0 0 0 := 1 ]> {[ tile 0 0 1 := 0 ]}) ∅.

Definition rebuilt (gd : GroupData) (jobs : gmap df.coord nat) (e : extents)
    (st : State) : State :=
  with_fb_extents e (with_manager (mkChannelManager gd jobs) st).

Definition overlayless_state : State :=
  rebuilt lone_group ∅ (mkExtents true 1 1 1) (fresh_state overlayless_blocks []).

Definition ready_state : State :=
  rebuilt lone_group {[ tile 0 0 0 := 7 ]} (mkExtents true 1 1 2)
    (fresh_state ready_blocks [channel_job]).

Definition blocked_state : State :=
  rebuilt stacked_groups {[ tile 0 0 0 := 7 ]} (mkExtents true 1 1 2)
    (fresh_state blocked_blocks [channel_job]).

(** ** Adjacency and the invariants of the groups *)

(** Two distinct tiles of one layer that differ by at most one in x and
    in y. *)
Definition adjacent (p q : df.coord) : Prop :=
  (df.z q = df.z p ∧ -1 ≤ df.x q - df.x p ≤ 1 ∧ -1 ≤ df.y q - df.y p ≤ 1)%Z ∧ q ≠ p.

(** All members of a group lie on one layer. *)
Definition layered (gd : GroupData) : Prop :=
  ∀ i g p q b b', groups gd !! i = Some g → (p, b) ∈ g → (q, b') ∈ g →
                  df.z p = df.z q.

(** Two indexed tiles that are neighbours are in the same slot. *)
Definition separated (gd : GroupData) : Prop :=
  ∀ p q i j, groups_map gd !! p = Some i → groups_map gd !! q = Some j →
             q ∈ getNeighbours p → i = j.

(** One step from a tile to a neighbour that is a member of [g]. *)
Definition step_in (g : Group) (a b : df.coord) : Prop :=
  b ∈ getNeighbours a ∧ ∃ blk, (b, blk) ∈ g.

(** Any two members of a group are joined by a chain of neighbouring
    members. *)
Definition connected (gd : GroupData) : Prop :=
  ∀ i g p q b b', groups gd !! i = Some g → (p, b) ∈ g → (q, b') ∈ g →
                  rtc (step_in g) p q.

(** The groups are the 8-connected components of the tracked tiles: the
    tracker is consistent, every group lies on one layer and is connected,
    and no two groups hold neighbouring tiles. *)
Definition components (gd : GroupData) : Prop :=
  wf gd ∧ layered gd ∧ separated gd ∧ connected gd.

Definition protected_blocks : gmap nat df.map_block :=
  <[ 1 := corner_block (tile 0 0 1) df.Channel false [] ]>
    {[ 0 := corner_block (tile 0 0 0) df.Channel false [priority_overlay 6000] ]}.

Definition protected_state : State :=
  rebuilt stacked_groups ∅ (mkExtents true 1 1 2) (fresh_state protected_blocks []).

(** ** Neighbours of a completed tile *)

(** [manageNeighbours]; [isValidTilePos] is the test of the simulation's
    [Maps] module for a position inside the map. *)
Definition manageNeighbours (isValidTilePos : df.coord → bool) (env : Maps)
    (tile_ : df.coord) (st : State) : option State :=
  for_each (λ position s,
    if isValidTilePos position then
      manage_safety env (getTileBlock env position) (local_of position)
        position (above position) s
    else Some s) (getNeighbours tile_) st.

(** * Properties *)

(** C1. A group is ready exactly when, for each of its member tiles
    (x, y, z), the tile (x, y, z+1) one layer above is in no group of the
    index or in an empty group; one member whose overlying tile is in a
    non-empty group makes the check answer false. *)
Theorem is_group_ready_iff (gd : GroupData) (below_group : Group) :
  (is_group_ready gd below_group = true ↔
     ∀ tile block, (tile, block) ∈ below_group →
       find gd (df.Coord (df.x tile) (df.y tile) (df.z tile + 1)) = None ∨
       find gd (df.Coord (df.x tile) (df.y tile) (df.z tile + 1)) = Some ∅)
  ∧ ((∃ tile block g, (tile, block) ∈ below_group ∧
        find gd (df.Coord (df.x tile) (df.y tile) (df.z tile + 1)) = Some g ∧
        g ≠ ∅) →
     is_group_ready gd below_group = false).
Proof.
  assert (Hloop : ∀ tiles, is_group_ready_loop gd tiles = true ↔
            ∀ t, t ∈ tiles → find gd (above t.1) = None ∨
                             find gd (above t.1) = Some ∅).
  { induction tiles as [|t tiles IH]; simpl.
    - split; [intros _ t Ht; by apply elem_of_nil in Ht | done].
    - destruct (find gd (above t.1)) as [g|] eqn:Hf.
      + case_bool_decide as Hg; simpl.
        * subst g. rewrite IH. split.
          -- intros H t' [->|Ht']%elem_of_cons; [by right; rewrite Hf | auto].
          -- intros H t' Ht'. apply H. by right.
        * split; [done|]. intros H.
          destruct (H t) as [Hn|Hs]; [by left | rewrite Hf in Hn; done |].
          rewrite Hf in Hs. by inversion Hs.
      + rewrite IH. split.
        * intros H t' [->|Ht']%elem_of_cons; [by left; rewrite Hf | auto].
        * intros H t' Ht'. apply H. by right. }
  assert (Hiff : is_group_ready gd below_group = true ↔
     ∀ tile block, (tile, block) ∈ below_group →
       find gd (above tile) = None ∨ find gd (above tile) = Some ∅).
  { unfold is_group_ready. rewrite Hloop. split.
    - intros H tile block Hin. apply (H (tile, block)). by apply elem_of_elements.
    - intros H [tile block] Hin. apply (H tile block). by apply elem_of_elements in Hin. }
  split; [exact Hiff|].
  intros (tile & block & g & Hin & Hf & Hne).
  apply not_true_is_false. intros Hr.
  pose proof (proj1 Hiff Hr) as Hall. clear Hr. rename Hall into Hr. destruct (Hr tile block Hin) as [Hn|Hs]; unfold above in *.
  - rewrite Hf in Hn. done.
  - rewrite Hf in Hs. by inversion Hs.
Qed.

Lemma visit_neighbours_slots (m : gmap df.coord nat) (ns : list df.coord) (st : scan) :
  visit_neighbours m ns st =
  for_each (λ i s, visit_slot s i) (omap (λ n, m !! n) ns) st.
Proof.
  revert st. induction ns as [|n ns IH]; intros st; simpl; [done|].
  unfold visit_neighbour. destruct (m !! n) as [i|] eqn:Hn; simpl.
  - fold (visit_slot st i). destruct (visit_slot st i); simpl; [apply IH | done].
  - apply IH.
Qed.

Lemma sum_list_insert (l : list nat) (i v w : nat) :
  l !! i = Some w → sum_list (<[i := v]> l) + w = sum_list l + v.
Proof.
  revert i. induction l as [|a l IH]; intros [|i] Hl; simpl in *; try done.
  - inversion Hl; subst. lia.
  - specialize (IH i Hl). lia.
Qed.

Lemma tracked_insert (gs : list Group) (i : nat) (g g' : Group) :
  gs !! i = Some g →
  tracked_tiles (<[i := g']> gs) + size g = tracked_tiles gs + size g'.
Proof.
  intros Hi. unfold tracked_tiles. rewrite list_fmap_insert.
  apply sum_list_insert. by rewrite list_lookup_fmap, Hi.
Qed.

Lemma visit_slot_merged G0 F0 h D st i :
  pairwise_disjoint G0 → merged G0 F0 h D st → i < length G0 →
  ∃ st', visit_slot st i = Some st' ∧ merged G0 F0 h (({[i]} ∖ {[h]}) ∪ D) st'.
Proof.
  intros Hdis (Hh & Hlen & HhD & (Gh & HGh & HGhm) & HD & Hother & Hfree & Htr) Hi.
  unfold visit_slot. rewrite Hh.
  destruct (sgroups st !! i) as [Gi|] eqn:HGi; simpl.
  2: { apply lookup_ge_None in HGi. lia. }
  destruct (decide (h ≠ i)) as [Hne|Heq].
  - rewrite HGh. simpl. eexists; split; [done|].
    assert (Hhlt : h < length (sgroups st)) by (by eapply lookup_lt_Some).
    assert (HGi' : Gi = if decide (i ∈ D) then ∅ else G0 !!! i).
    { destruct (decide (i ∈ D)) as [HiD|HiD].
      - rewrite (HD i HiD) in HGi. by inversion HGi.
      - rewrite (Hother i) in HGi; [|done|done].
        by rewrite (list_lookup_total_correct _ _ _ HGi). }
    unfold merged; simpl. split_and!.
    + done.
    + by rewrite !length_insert.
    + set_solver.
    + exists (Gh ∪ Gi). split.
      * rewrite list_lookup_insert_ne by done.
        by rewrite list_lookup_insert_eq.
      * intros q. rewrite elem_of_union, HGhm. split.
        -- intros [(i' & Hi' & Hq)|Hq].
           ++ exists i'. split; [|done]. set_solver.
           ++ exists i. split; [set_solver|]. rewrite HGi' in Hq.
              destruct (decide (i ∈ D)); [set_solver | done].
        -- intros (i' & Hi' & Hq).
           destruct (decide (i' = i)) as [->|Hne'].
           ++ destruct (decide (i ∈ D)) as [HiD|HiD].
              ** left. exists i. split; [by right | done].
              ** right. by rewrite HGi'.
           ++ left. exists i'. split; [set_solver | done].
    + intros i' Hi'. destruct (decide (i' = i)) as [->|Hne'].
      * apply list_lookup_insert_eq. rewrite length_insert. lia.
      * rewrite list_lookup_insert_ne by done.
        rewrite list_lookup_insert_ne; [apply HD; set_solver|].
        intros ->. set_solver.
    + intros j Hjh HjD.
      rewrite list_lookup_insert_ne by set_solver.
      rewrite list_lookup_insert_ne by done.
      apply Hother; set_solver.
    + set_solver.
    + rewrite <- Htr.
      assert (Hdisj : Gh ## Gi).
      { rewrite HGi'. destruct (decide (i ∈ D)) as [HiD|HiD]; [set_solver|].
        intros q Hq1 Hq2. apply HGhm in Hq1 as (i' & Hi' & Hq1).
        apply (Hdis i' i q); [|done|done]. set_solver. }
      pose proof (tracked_insert (sgroups st) h Gh (Gh ∪ Gi) HGh) as E1.
      assert (HGi2 : <[h := Gh ∪ Gi]> (sgroups st) !! i = Some Gi).
      { by rewrite list_lookup_insert_ne. }
      pose proof (tracked_insert _ i Gi ∅ HGi2) as E2.
      rewrite size_union in E1 by done. rewrite size_empty in E2. lia.
  - assert (i = h) as -> by (destruct (decide (i = h)); [done | exfalso; apply Heq; congruence]).
    eexists; split; [done|].
    replace (({[h]} ∖ {[h]}) ∪ D) with D by set_solver.
    unfold merged. split_and!; try done. by exists Gh.
Qed.

Lemma visit_slots_merged G0 F0 h L :
  pairwise_disjoint G0 → (∀ i, i ∈ L → i < length G0) →
  ∀ D st, merged G0 F0 h D st →
  ∃ st', for_each (λ i s, visit_slot s i) L st = Some st' ∧
         merged G0 F0 h ((list_to_set L ∖ {[h]}) ∪ D) st'.
Proof.
  intros Hdis. induction L as [|i L IH]; intros HL D st Hm; simpl.
  - exists st. split; [done|].
    by replace ((∅ ∖ {[h]}) ∪ D) with D by set_solver.
  - destruct (visit_slot_merged G0 F0 h D st i Hdis Hm) as (st1 & -> & Hm1).
    { apply HL. by left. }
    simpl. destruct (IH (λ j Hj, HL j (list_elem_of_further _ _ _ Hj)) _ _ Hm1)
      as (st' & -> & Hm').
    exists st'. split; [done|].
    by replace ((({[i]} ∪ list_to_set L) ∖ {[h]}) ∪ D)
      with ((list_to_set L ∖ {[h]}) ∪ (({[i]} ∖ {[h]}) ∪ D)) by set_solver.
Qed.

Lemma wf_pairwise_disjoint gd : wf gd → pairwise_disjoint (groups gd).
Proof.
  intros (_ & W2 & _) i j [q b] Hij Hi Hj.
  destruct (groups gd !! i) as [gi|] eqn:Ei.
  2: { rewrite list_lookup_total_alt, Ei in Hi. set_solver. }
  destruct (groups gd !! j) as [gj|] eqn:Ej.
  2: { rewrite list_lookup_total_alt, Ej in Hj. set_solver. }
  rewrite (list_lookup_total_correct _ _ _ Ei) in Hi.
  rewrite (list_lookup_total_correct _ _ _ Ej) in Hj.
  pose proof (W2 _ _ _ _ Ei Hi). pose proof (W2 _ _ _ _ Ej Hj). congruence.
Qed.

Lemma adjacent_slots_lt gd p i :
  wf gd → i ∈ adjacent_slots gd p → i < length (groups gd).
Proof.
  intros (W1 & _) Hi. unfold adjacent_slots in Hi.
  apply list_elem_of_omap in Hi as (n & _ & Hn).
  destruct (W1 _ _ Hn) as (g & b & Hg & _). by eapply lookup_lt_Some.
Qed.

Lemma visit_neighbours_spec gd p :
  wf gd →
  match adjacent_slots gd p with
  | [] => visit_neighbours (groups_map gd) (getNeighbours p)
            (mkScan None (groups gd) (free_spots gd))
          = Some (mkScan None (groups gd) (free_spots gd))
  | h :: L => ∃ st, visit_neighbours (groups_map gd) (getNeighbours p)
                      (mkScan None (groups gd) (free_spots gd)) = Some st ∧
                    merged (groups gd) (free_spots gd) h (list_to_set L ∖ {[h]}) st
  end.
Proof.
  intros Hwf. rewrite visit_neighbours_slots.
  pose proof (adjacent_slots_lt gd p) as Hlt.
  unfold adjacent_slots in *.
  destruct (omap _ (getNeighbours p)) as [|h L]; [done|].
  assert (Hh : h < length (groups gd)) by (apply Hlt; [done | by left]).
  destruct (lookup_lt_is_Some_2 _ _ Hh) as [Gh HGh].
  assert (Hfirst : visit_slot (mkScan None (groups gd) (free_spots gd)) h
                   = Some (mkScan (Some h) (groups gd) (free_spots gd))).
  { unfold visit_slot; simpl. by rewrite HGh. }
  cbn [for_each]. rewrite Hfirst. cbn [mbind option_bind].
  destruct (visit_slots_merged (groups gd) (free_spots gd) h L
              (wf_pairwise_disjoint gd Hwf)
              (λ j Hj, Hlt j Hwf (list_elem_of_further _ _ _ Hj)) ∅
              (mkScan (Some h) (groups gd) (free_spots gd))) as (st & Hst & Hm).
  - unfold merged; simpl. split_and!; try done; try set_solver.
    exists Gh. split; [done|]. intros q.
    rewrite <- (list_lookup_total_correct _ _ _ HGh). set_solver.
  - exists st. split; [done|].
    by replace (list_to_set L ∖ {[h]}) with ((list_to_set L ∖ {[h]}) ∪ (∅ : gset nat))
      by set_solver.
Qed.

Lemma refresh_index_lookup members gi (m : gmap df.coord nat) q :
  refresh_index members gi m !! q =
  if decide (q ∈ members.*1) then Some gi else m !! q.
Proof.
  revert m. induction members as [|a l IH]; intros m.
  - unfold refresh_index; cbn [foldl fmap list_fmap].
    rewrite decide_False; [done | apply not_elem_of_nil].
  - unfold refresh_index in *; cbn [foldl fmap list_fmap].
    rewrite IH, insert_delete_eq.
    destruct (decide (q ∈ l.*1)) as [Hin|Hnin].
    + rewrite decide_True; [done | by right].
    + destruct (decide (q = a.1)) as [->|Hne].
      * rewrite lookup_insert_eq. rewrite decide_True; [done | by left].
      * rewrite lookup_insert_ne by done.
        rewrite decide_False; [done|]. intros [?|?]%elem_of_cons; done.
Qed.

Lemma tracked_tiles_app gs1 gs2 :
  tracked_tiles (gs1 ++ gs2) = tracked_tiles gs1 + tracked_tiles gs2.
Proof. unfold tracked_tiles. by rewrite fmap_app, sum_list_with_app. Qed.

Lemma add_new_tile gd p blk :
  wf gd → groups_map gd !! p = None →
  ∃ gd' gi G, add p blk gd = Some gd' ∧ add_outcome gd p blk gd' gi G.
Proof.
  intros Hwf Hp. pose proof Hwf as (W1 & W2 & W3).
  assert (Hfresh : ∀ i, (p, blk) ∉ groups gd !!! i).
  { intros i Hin. destruct (groups gd !! i) as [g|] eqn:Eg.
    - rewrite (list_lookup_total_correct _ _ _ Eg) in Hin.
      pose proof (W2 _ _ _ _ Eg Hin). congruence.
    - rewrite list_lookup_total_alt, Eg in Hin. set_solver. }
  unfold add. rewrite Hp.
  pose proof (visit_neighbours_spec gd p Hwf) as Hloop.
  pose proof (λ i, adjacent_slots_lt gd p i Hwf) as Hlt.
  unfold add_outcome.
  destruct (adjacent_slots gd p) as [|h L] eqn:Eadj.
  - (* no indexed neighbour *)
    rewrite Hloop; simpl. unfold choose_slot; simpl.
    destruct (head (elements (free_spots gd))) as [i|] eqn:Ehd; simpl.
    + assert (Hi : i ∈ free_spots gd).
      { apply elem_of_elements. by eapply head_Some_elem_of. }
      pose proof (W3 i Hi) as Hgi. rewrite Hgi; simpl.
      eexists _, i, ∅. split; [done|]. simpl.
      assert (Hilt : i < length (groups gd)) by (by eapply lookup_lt_Some).
      split_and!.
      * by rewrite list_lookup_insert_eq.
      * set_solver.
      * intros j Hj. rewrite list_lookup_insert_ne by done. set_solver.
      * right. auto.
      * set_solver.
      * intros q. apply refresh_index_lookup.
      * pose proof (tracked_insert (groups gd) i ∅ (∅ ∪ {[(p, blk)]}) Hgi) as E.
        rewrite size_empty, union_empty_l_L, size_singleton in E. 
        rewrite union_empty_l_L. lia.
    + rewrite lookup_app_r, Nat.sub_diag by done. simpl.
      eexists _, (length (groups gd)), ∅. split; [done|]. simpl.
      split_and!.
      * rewrite list_lookup_insert_eq; [done|]. rewrite length_app; simpl; lia.
      * set_solver.
      * intros j Hj. rewrite list_lookup_insert_ne by done.
        split; [set_solver|]. intros _.
        destruct (decide (j < length (groups gd))).
        -- by rewrite lookup_app_l.
        -- rewrite !lookup_ge_None_2; [done | lia | rewrite length_app; simpl; lia].
      * right. split; [done|]. right. by apply lookup_ge_None_2.
      * apply head_None in Ehd. apply elements_empty_inv in Ehd.
        apply leibniz_equiv in Ehd. rewrite Ehd. set_solver.
      * intros q. apply refresh_index_lookup.
      * rewrite union_empty_l_L.
        rewrite insert_app_r_alt, Nat.sub_diag by done. simpl.
        rewrite tracked_tiles_app. f_equal.
        unfold tracked_tiles. cbn [fmap list_fmap sum_list_with id].
        rewrite size_singleton. lia.
  - (* a host was found *)
    destruct Hloop as (st & -> & Hm). simpl.
    destruct Hm as (Hh & Hlen & HhD & (Gh & HGh & HGhm) & HD & Hother & Hfree & Htr).
    unfold choose_slot. rewrite Hh. rewrite HGh. simpl.
    eexists _, h, Gh. split; [done|]. simpl.
    assert (Hhlt : h < length (sgroups st)) by (by eapply lookup_lt_Some).
    split_and!.
    * by rewrite list_lookup_insert_eq.
    * intros q. rewrite HGhm. split.
      -- intros (i & Hi & Hq). exists i. split; [|done].
         clear -Hi. set_solver.
      -- intros (i & Hi & Hq). exists i. split; [|done].
         destruct (decide (i = h)); [by left | right; clear -Hi n; set_solver].
    * intros j Hj. rewrite list_lookup_insert_ne by done. split.
      -- intros Hin. apply HD. clear -Hin Hj. set_solver.
      -- intros Hnin. apply Hother; [done|]. clear -Hnin. set_solver.
    * by left.
    * intros i. rewrite Hfree. split.
      -- intros [Hi|Hi]%elem_of_union; [set_solver|].
         split; [|by left]. intros ->.
         assert (h ∈ h :: L) as Hhin by (by left).
         rewrite <- Eadj in Hhin. unfold adjacent_slots in Hhin.
         apply list_elem_of_omap in Hhin as (n & _ & Hn).
         destruct (W1 _ _ Hn) as (g & b & Hg & Hin).
         rewrite (W3 h Hi) in Hg. inversion Hg; subst. set_solver.
      -- set_solver.
    * intros q. apply refresh_index_lookup.
    * assert (Hnew : (p, blk) ∉ Gh).
      { intros Hin. apply HGhm in Hin as (i & _ & Hin). by apply (Hfresh i). }
      pose proof (tracked_insert (sgroups st) h Gh (Gh ∪ {[(p, blk)]}) HGh) as E.
      rewrite size_union, size_singleton in E by set_solver. lia.
Qed.

Lemma lookup_total_elem (gs : list Group) i q :
  q ∈ gs !!! i ↔ ∃ g, gs !! i = Some g ∧ q ∈ g.
Proof.
  rewrite list_lookup_total_alt. destruct (gs !! i) as [g|]; simpl.
  - split; [eauto | by intros (g' & [= ->] & ?)].
  - split; [set_solver | by intros (? & ? & ?)].
Qed.

Lemma elem_of_keys (g : Group) (q : df.coord) :
  q ∈ (elements g).*1 ↔ ∃ b, (q, b) ∈ g.
Proof.
  rewrite list_elem_of_fmap. split.
  - intros ([q' b] & -> & Hin). exists b. by apply elem_of_elements in Hin.
  - intros (b & Hin). exists (q, b). split; [done | by apply elem_of_elements].
Qed.

Lemma add_outcome_wf gd p blk gd' gi G :
  wf gd → groups_map gd !! p = None → add_outcome gd p blk gd' gi G → wf gd'.
Proof.
  intros (W1 & W2 & W3) Hp (Hgi & HG & Hoth & Hhost & Hfr & Hmap & _).
  assert (HA : ∀ i, i ∈ (list_to_set (adjacent_slots gd p) : gset nat) →
                    ∀ q, q ∈ groups gd !!! i → q ∈ G).
  { intros i Hi q Hq. apply HG. eauto. }
  assert (Hgi_old : ∀ q, q ∈ groups gd !!! gi → q ∈ G).
  { intros q Hq. destruct Hhost as [Hhd|(_ & [He|Hn])].
    - apply (HA gi); [|done]. apply elem_of_list_to_set.
      by eapply head_Some_elem_of.
    - apply lookup_total_elem in Hq as (g & Hg & Hq). rewrite He in Hg.
      inversion Hg; subst. set_solver.
    - apply lookup_total_elem in Hq as (g & Hg & Hq). congruence. }
  split_and!.
  - intros q i Hq. rewrite Hmap in Hq.
    destruct (decide (q ∈ _)) as [Hk|Hk].
    + inversion Hq; subst i. apply elem_of_keys in Hk as (b & Hb). eauto.
    + destruct (W1 _ _ Hq) as (g & b & Hg & Hin).
      assert (Hq' : (q, b) ∈ groups gd !!! i) by (apply lookup_total_elem; eauto).
      assert (HnG : (q, b) ∉ G).
      { intros HinG. apply Hk, elem_of_keys. exists b. set_solver. }
      destruct (decide (i = gi)) as [->|Hne]; [by apply Hgi_old in Hq'|].
      destruct (Hoth i Hne) as (_ & Hsame).
      exists g, b. split; [|done]. rewrite Hsame; [done|].
      intros HiA. apply HnG. by apply (HA i).
  - intros i g q b Hg Hin. rewrite Hmap.
    destruct (decide (i = gi)) as [->|Hne].
    + rewrite Hgi in Hg. inversion Hg; subst g.
      rewrite decide_True; [done|]. apply elem_of_keys. eauto.
    + destruct (Hoth i Hne) as (Hempty & Hsame).
      destruct (decide (i ∈ (list_to_set (adjacent_slots gd p) : gset nat)))
        as [HiA|HiA].
      * rewrite (Hempty HiA) in Hg. inversion Hg; subst. set_solver.
      * rewrite (Hsame HiA) in Hg. pose proof (W2 _ _ _ _ Hg Hin) as Hq.
        rewrite decide_False; [done|].
        intros (b' & [Hb'|Hb']%elem_of_union)%elem_of_keys.
        -- apply HG in Hb' as (i' & Hi' & Hb').
           apply lookup_total_elem in Hb' as (g' & Hg' & Hb').
           pose proof (W2 _ _ _ _ Hg' Hb'). congruence.
        -- apply elem_of_singleton in Hb'. inversion Hb'; subst. congruence.
  - intros i (Hne & Hi)%Hfr. destruct (Hoth i Hne) as (Hempty & Hsame).
    destruct (decide (i ∈ (list_to_set (adjacent_slots gd p) : gset nat)))
      as [HiA|HiA]; [by apply Hempty|].
    rewrite (Hsame HiA). apply W3. by destruct Hi.
Qed.

Lemma wf_empty : wf GroupData_empty.
Proof.
  unfold wf, GroupData_empty; simpl. split_and!.
  - intros p i H. by rewrite lookup_empty in H.
  - intros i g p b H. by rewrite lookup_nil in H.
  - set_solver.
Qed.

(** [add] on a consistent tracker always has a result, the result is
    consistent, the inserted tile is indexed and no indexed tile is lost. *)
Lemma add_wf gd p blk :
  wf gd →
  ∃ gd', add p blk gd = Some gd' ∧ wf gd' ∧
         is_Some (groups_map gd' !! p) ∧
         (∀ q, is_Some (groups_map gd !! q) → is_Some (groups_map gd' !! q)).
Proof.
  intros Hwf. destruct (groups_map gd !! p) as [i|] eqn:Hp.
  - exists gd. unfold add. rewrite Hp. by split_and!.
  - destruct (add_new_tile gd p blk Hwf Hp) as (gd' & gi & G & Hadd & Hout).
    exists gd'. split; [done|]. split; [by eapply add_outcome_wf|].
    destruct Hout as (_ & _ & _ & _ & _ & Hmap & _). split.
    + rewrite Hmap, decide_True; [done|]. apply elem_of_keys. exists blk. set_solver.
    + intros q Hq. rewrite Hmap. by destruct (decide _).
Qed.

(** C6. Inserting a tile that is not indexed and is adjacent to members of
    at least two groups of a consistent tracker: the first slot found hosts
    one group whose members are those of all adjacent groups plus the new
    tile; every other adjacent slot is emptied and pooled; the other groups
    are untouched; no tracked tile is lost or counted twice (the total is
    the total before plus the inserted tile); the index maps every member
    of the resulting group to the host slot. *)
Theorem add_merges_adjacent_groups (gd : GroupData) (p : df.coord)
    (blk : option nat) :
  wf gd →
  groups_map gd !! p = None →
  2 ≤ size (list_to_set (adjacent_slots gd p) : gset nat) →
  ∃ gd' h g',
    add p blk gd = Some gd' ∧
    head (adjacent_slots gd p) = Some h ∧
    groups gd' !! h = Some g' ∧
    (∀ q, q ∈ g' ↔
          q = (p, blk) ∨
          ∃ i g, i ∈ adjacent_slots gd p ∧ groups gd !! i = Some g ∧ q ∈ g) ∧
    (∀ i, i ∈ adjacent_slots gd p → i ≠ h →
          groups gd' !! i = Some ∅ ∧ i ∈ free_spots gd') ∧
    (∀ j, j ∉ adjacent_slots gd p → groups gd' !! j = groups gd !! j) ∧
    tracked_tiles (groups gd') = tracked_tiles (groups gd) + 1 ∧
    (∀ q b, (q, b) ∈ g' → groups_map gd' !! q = Some h).
Proof.
  intros Hwf Hp HN.
  destruct (add_new_tile gd p blk Hwf Hp) as (gd' & gi & G & Hadd & Hout).
  destruct Hout as (Hgi & HG & Hoth & Hhost & Hfr & Hmap & Htr).
  assert (Hhd : head (adjacent_slots gd p) = Some gi).
  { destruct Hhost as [?|(Hnil & _)]; [done|].
    rewrite Hnil in HN. change (2 ≤ size (∅ : gset nat)) in HN.
    rewrite size_empty in HN. lia. }
  exists gd', gi, (G ∪ {[(p, blk)]}). split_and!; try done.
  - intros q. rewrite elem_of_union, elem_of_singleton, HG. split.
    + intros [(i & Hi & Hq) | ->]; [right | by left].
      apply lookup_total_elem in Hq as (g & Hg & Hq).
      exists i, g. split_and!; try done. by apply elem_of_list_to_set in Hi.
    + intros [->|(i & g & Hi & Hg & Hq)]; [by right | left].
      exists i. split; [by apply elem_of_list_to_set|].
      apply lookup_total_elem. eauto.
  - intros i Hi Hne. destruct (Hoth i Hne) as (Hempty & _).
    split; [apply Hempty; by apply elem_of_list_to_set|].
    apply Hfr. split; [done|]. right. by apply elem_of_list_to_set.
  - intros j Hj.
    assert (Hne : j ≠ gi).
    { intros ->. apply Hj. by eapply head_Some_elem_of. }
    destruct (Hoth j Hne) as (_ & Hsame). apply Hsame.
    by rewrite elem_of_list_to_set.
  - intros q b Hin. rewrite Hmap, decide_True; [done|].
    apply elem_of_keys. eauto.
Qed.

Lemma two_groups_built :
  (gd ← add (tile 0 0 5) (Some 0) GroupData_empty; add (tile 2 0 5) (Some 0) gd)
  = Some two_groups.
Proof. vm_compute. reflexivity. Qed.

Section for_each_grow.
Context {A : Type} (T : A → df.coord → Prop)
        (body : A → GroupData → option GroupData).

Lemma for_each_grow (l : list A) :
  (∀ a, a ∈ l → ∀ s, wf s →
     ∃ s', body a s = Some s' ∧ wf s' ∧ grows s s' ∧
           ∀ q, T a q → indexed s' q) →
  ∀ s, wf s →
    ∃ s', for_each body l s = Some s' ∧ wf s' ∧ grows s s' ∧
          ∀ a q, a ∈ l → T a q → indexed s' q.
Proof.
  induction l as [|a l IH]; intros Hbody s Hwf; simpl.
  - exists s. split_and!; [done | done | by intros q Hq |].
    intros a q Ha. by apply elem_of_nil in Ha.
  - destruct (Hbody a (list_elem_of_here _ _) s Hwf) as (s1 & -> & Hwf1 & Hg1 & Hc1).
    simpl.
    destruct (IH (λ a' Ha', Hbody a' (list_elem_of_further _ _ _ Ha')) s1 Hwf1)
      as (s' & -> & Hwf' & Hg' & Hc').
    exists s'. split_and!; try done.
    + intros q Hq. by apply Hg', Hg1.
    + intros a' q [->|Ha']%elem_of_cons HT; [apply Hg'; by apply Hc1 | eauto].
Qed.

Lemma for_each_covers (P : df.coord → Prop) (l : list A) (s : GroupData) :
  (∀ q, P q → ∃ a, a ∈ l ∧ T a q) →
  (∀ a, a ∈ l → ∀ s, wf s →
     ∃ s', body a s = Some s' ∧ wf s' ∧ grows s s' ∧
           ∀ q, T a q → indexed s' q) →
  wf s →
  ∃ s', for_each body l s = Some s' ∧ wf s' ∧ grows s s' ∧
        ∀ q, P q → indexed s' q.
Proof.
  intros HP Hbody Hwf.
  destruct (for_each_grow l Hbody s Hwf) as (s' & ? & ? & ? & Hc).
  exists s'. split_and!; try done.
  intros q (a & Ha & HT)%HP. by apply (Hc a).
Qed.
End for_each_grow.

Lemma add_grows gd p blk :
  wf gd → ∃ gd', add p blk gd = Some gd' ∧ wf gd' ∧ grows gd gd' ∧ indexed gd' p.
Proof.
  intros Hwf. destruct (add_wf gd p blk Hwf) as (gd' & ? & ? & ? & ?).
  exists gd'. by split_and!.
Qed.

Lemma foreach_tile_grows blk b z gd :
  wf gd →
  ∃ gd', foreach_tile blk b z gd = Some gd' ∧ wf gd' ∧ grows gd gd' ∧
         ∀ q, block_channels blk z q → indexed gd' q.
Proof.
  intros Hwf. unfold foreach_tile.
  apply (for_each_covers
    (λ lx q, ∃ ly, (0 ≤ ly < 16)%Z ∧ df.designation blk lx ly = df.Channel ∧
       q = df.Coord (df.x (df.map_pos blk) + lx) (df.y (df.map_pos blk) + ly) z));
    [| |done].
  - intros q (lx & ly & Hlx & Hly & Hd & ->). exists lx. split; [|eauto].
    apply elem_of_seqZ. lia.
  - intros lx _ s Hs.
    apply (for_each_covers
      (λ ly q, df.designation blk lx ly = df.Channel ∧
         q = df.Coord (df.x (df.map_pos blk) + lx) (df.y (df.map_pos blk) + ly) z));
      [| |done].
    + intros q (ly & Hly & Hd & ->). exists ly. split; [|done].
      apply elem_of_seqZ. lia.
    + intros ly _ s0 Hs0. unfold is_channel_designation.
      case_bool_decide as Hd.
      * destruct (add_grows s0 (df.Coord (df.x (df.map_pos blk) + lx)
                    (df.y (df.map_pos blk) + ly) z) (Some b) Hs0)
          as (s1 & ? & ? & ? & ?).
        exists s1. split_and!; try done. by intros q (_ & ->).
      * exists s0. split_and!; [done | done | by intros q Hq |].
        by intros q (? & _).
Qed.

Lemma foreach_block_grows env bs e gd :
  blocks_valid env bs e → wf gd →
  ∃ gd', foreach_block env bs e gd = Some gd' ∧ wf gd' ∧ grows gd gd' ∧
         ∀ q, grid_channels env bs e q → indexed gd' q.
Proof.
  intros Hval Hwf. unfold foreach_block.
  apply (for_each_covers
    (λ ix q, ∃ iy iz b blk,
       (0 ≤ ix < size_x e)%Z ∧ (0 ≤ iy < size_y e)%Z ∧ (0 ≤ iz < size_z e)%Z ∧
       getBlock env ix iy iz = Some b ∧ bs !! b = Some blk ∧
       block_channels blk iz q)); [| |done].
  - intros q (ix & iy & iz & b & blk & Hq). exists ix. split; [|eauto 10].
    apply elem_of_seqZ. lia.
  - intros ix Hix s Hs. apply elem_of_seqZ in Hix.
    apply (for_each_covers
      (λ iy q, ∃ iz b blk,
         (0 ≤ ix < size_x e)%Z ∧ (0 ≤ iy < size_y e)%Z ∧ (0 ≤ iz < size_z e)%Z ∧
         getBlock env ix iy iz = Some b ∧ bs !! b = Some blk ∧
         block_channels blk iz q)); [| |done].
    + intros q (iy & iz & b & blk & Hq). exists iy. split; [|eauto 10].
      apply elem_of_seqZ. lia.
    + intros iy Hiy s0 Hs0. apply elem_of_seqZ in Hiy.
      apply (for_each_covers
        (λ iz q, ∃ b blk,
           (0 ≤ ix < size_x e)%Z ∧ (0 ≤ iy < size_y e)%Z ∧ (0 ≤ iz < size_z e)%Z ∧
           getBlock env ix iy iz = Some b ∧ bs !! b = Some blk ∧
           block_channels blk iz q)); [| |done].
      * intros q (iz & b & blk & Hq). exists iz. split; [|eauto 10].
        apply elem_of_reverse, elem_of_seqZ. lia.
      * intros iz Hiz s2 Hs2. apply elem_of_reverse, elem_of_seqZ in Hiz.
        destruct (getBlock env ix iy iz) as [b|] eqn:Hb.
        -- destruct (Hval ix iy iz b) as [blk Hblk]; [lia..|done|].
           rewrite Hblk; simpl.
           destruct (foreach_tile_grows blk b iz s2 Hs2) as (s3 & ? & ? & ? & Hc3).
           exists s3. split_and!; try done.
           intros q (b' & blk' & _ & _ & _ & [= <-] & Hblk' & Hq).
           rewrite Hblk in Hblk'. inversion Hblk'; subst. by apply Hc3.
        -- exists s2. split_and!; [done | done | by intros q Hq |].
           by intros q (b' & blk' & _ & _ & _ & ? & _).
Qed.

Lemma grid_consistent_valid env bs e :
  grid_consistent env bs e → blocks_valid env bs e.
Proof.
  intros (Hb & _) ix iy iz b ? ? ? Hg.
  destruct (Hb ix iy iz b) as (blk & ? & _); eauto.
Qed.

Lemma channel_tile_scanned env bs e p :
  grid_consistent env bs e → in_extents e p →
  tile_designation env bs p = Some df.Channel →
  grid_channels env bs e p.
Proof.
  intros (Hb & Ht) Hin Hd. unfold tile_designation in Hd.
  rewrite (Ht p Hin) in Hd.
  destruct (getBlock env _ _ _) as [b|] eqn:Hgb; [|done]. simpl in Hd.
  destruct (bs !! b) as [blk|] eqn:Hblk; [|done]. simpl in Hd.
  destruct Hin as (Hx & Hy & Hz).
  assert (Hix : (0 ≤ df.x p `div` 16 < size_x e)%Z).
  { split; [apply Z.div_pos; lia | apply Z.div_lt_upper_bound; lia]. }
  assert (Hiy : (0 ≤ df.y p `div` 16 < size_y e)%Z).
  { split; [apply Z.div_pos; lia | apply Z.div_lt_upper_bound; lia]. }
  destruct (Hb _ _ _ b Hix Hiy Hz Hgb) as (blk' & Hblk' & Hmx & Hmy).
  rewrite Hblk in Hblk'. inversion Hblk'; subst blk'.
  exists (df.x p `div` 16)%Z, (df.y p `div` 16)%Z, (df.z p), b, blk.
  split_and!; try done; try lia.
  exists (Z.rem (df.x p) 16), (Z.rem (df.y p) 16).
  rewrite !Z.rem_mod_nonneg in * by lia.
  pose proof (Z.mod_pos_bound (df.x p) 16 ltac:(lia)).
  pose proof (Z.mod_pos_bound (df.y p) 16 ltac:(lia)).
  injection Hd as Hd.
  split; [lia|]. split; [lia|]. split; [done|].
  rewrite Hmx, Hmy. destruct p as [px py pz]; simpl in *.
  pose proof (Z.div_mod px 16 ltac:(lia)). pose proof (Z.div_mod py 16 ltac:(lia)).
  f_equal; lia.
Qed.

Lemma DigJobs_read_acc (jl : list df.job) (m : gmap df.coord nat) (p : df.coord) :
  foldl (λ jobs job, if is_channel job then emplace (df.pos job) (df.id job) jobs
                     else jobs) m jl !! p =
  match m !! p with
  | Some j => Some j
  | None => df.id <$> head (filter (λ job, is_channel job = true ∧ df.pos job = p) jl)
  end.
Proof.
  revert m. induction jl as [|job jl IH]; intros m; simpl.
  - by destruct (m !! p).
  - rewrite IH. rewrite filter_cons.
    destruct (is_channel job) eqn:Hc.
    + unfold emplace. destruct (decide (df.pos job = p)) as [<-|Hne].
      * destruct (m !! df.pos job) as [j|] eqn:Hm; [by rewrite Hm|].
        rewrite lookup_insert_eq. by rewrite decide_True.
      * rewrite decide_False by (by intros [_ ?]).
        destruct (m !! df.pos job); [done|]. by rewrite lookup_insert_ne.
    + by rewrite decide_False by (by intros [? _]).
Qed.

Lemma DigJobs_read_lookup (jl : list df.job) (p : df.coord) :
  DigJobs_read jl !! p =
  df.id <$> head (filter (λ job, is_channel job = true ∧ df.pos job = p) jl).
Proof. unfold DigJobs_read. by rewrite DigJobs_read_acc, lookup_empty. Qed.

Lemma DigJobs_read_live (jl : list df.job) (p : df.coord) (j : nat) :
  DigJobs_read jl !! p = Some j → is_Some (deref_job jl j).
Proof.
  rewrite DigJobs_read_lookup. intros Hj.
  destruct (head (filter _ jl)) as [jb|] eqn:Hhd; [|done].
  simpl in Hj. inversion Hj; subst j.
  apply head_Some_elem_of, list_elem_of_filter in Hhd as (_ & Hin).
  unfold deref_job.
  destruct (filter (λ j, df.id j = df.id jb) jl) as [|jb' l'] eqn:Hf; [|by eexists].
  assert (jb ∈ filter (λ j, df.id j = df.id jb) jl) as Hjb
    by (by apply list_elem_of_filter).
  rewrite Hf in Hjb. by apply elem_of_nil in Hjb.
Qed.

Lemma wf_partitioned gd : wf gd → partitioned gd.
Proof.
  intros (_ & W2 & _) i j gi gj p b b' Hi Hj Hpi Hpj.
  pose proof (W2 _ _ _ _ Hi Hpi). pose proof (W2 _ _ _ _ Hj Hpj). congruence.
Qed.

Lemma GroupData_read_grows env st :
  wf (cm_groups (manager st)) →
  blocks_valid env (blocks st) (capture env (fb_extents st)) →
  ∃ st' , GroupData_read env st = Some st' ∧
    wf (cm_groups (manager st')) ∧
    grows (cm_groups (manager st)) (cm_groups (manager st')) ∧
    (∀ q, grid_channels env (blocks st) (capture env (fb_extents st)) q →
          indexed (cm_groups (manager st')) q) ∧
    blocks st' = blocks st ∧ job_list st' = job_list st ∧
    cm_jobs (manager st') = DigJobs_read (job_list st) ∧
    fb_extents st' = capture env (fb_extents st) ∧
    md_extents st' = md_extents st ∧ enabled st' = enabled st.
Proof.
  intros Hwf Hval. unfold GroupData_read.
  destruct (foreach_block_grows env (blocks st) _ _ Hval Hwf)
    as (gd1 & -> & Hwf1 & Hg1 & Hc1). simpl.
  destruct (for_each_grow (λ _ _, False)
    (λ (map_entry : df.coord * nat) gd,
       job ← deref_job (job_list st) map_entry.2;
       if is_channel job then
         add map_entry.1 (getTileBlock env (df.pos job)) gd
       else Some gd) (map_to_list (DigJobs_read (job_list st))))
    with (s := gd1) as (gd2 & -> & Hwf2 & Hg2 & _); [|done|].
  - intros [p j] Hin%elem_of_map_to_list s Hs. simpl.
    destruct (DigJobs_read_live _ _ _ Hin) as [jb ->]. simpl.
    destruct (is_channel jb).
    + destruct (add_grows s p (getTileBlock env (df.pos jb)) Hs)
        as (s' & ? & ? & ? & ?).
      exists s'. by split_and!.
    + exists s. split_and!; [done | done | by intros q Hq | done].
  - simpl. eexists. split; [done|]. simpl. split_and!; try done.
    + intros q Hq. by apply Hg2, Hg1.
    + intros q Hq. by apply Hg2, Hc1.
Qed.

(** C7, as amended. After a rebuild from a consistent tracker over a
    consistent grid, every Channel-designated tile within the extents the
    scan uses (those captured at the first rebuild) belongs to exactly one
    group, and no two groups share a tile. *)
Theorem rebuild_partitions_scanned_tiles (env : Maps) (st : State) :
  wf (cm_groups (manager st)) →
  grid_consistent env (blocks st) (capture env (fb_extents st)) →
  ∃ st', GroupData_read env st = Some st' ∧
    (∀ p, in_extents (capture env (fb_extents st)) p →
          tile_designation env (blocks st') p = Some df.Channel →
          ∃ i, in_group (cm_groups (manager st')) p i ∧
               ∀ j, in_group (cm_groups (manager st')) p j → j = i) ∧
    partitioned (cm_groups (manager st')).
Proof.
  intros Hwf Hgrid.
  destruct (GroupData_read_grows env st Hwf (grid_consistent_valid _ _ _ Hgrid))
    as (st' & Hrun & Hwf' & _ & Hcov & Hbs & _).
  exists st'. split; [done|]. split; [|by apply wf_partitioned].
  intros p Hin Hd. rewrite Hbs in Hd.
  destruct (Hcov p (channel_tile_scanned _ _ _ _ Hgrid Hin Hd)) as [i Hi].
  pose proof Hwf' as (W1 & W2 & _).
  destruct (W1 _ _ Hi) as (g & b & Hg & Hp).
  exists i. split; [by exists g, b|].
  intros j (g' & b' & Hg' & Hp'). pose proof (W2 _ _ _ _ Hg' Hp'). congruence.
Qed.

(** C7, counterexample. A rebuild on a one-chunk map followed by a rebuild
    on a two-chunk map: the channel designation at (16,0,0) of the second
    map is in no group, the scan still using the extents of the first. *)
Lemma rebuild_after_map_change_misses_tile :
  ∃ st1 st2,
    GroupData_read (row_map 1) (fresh_state small_map_blocks []) = Some st1 ∧
    GroupData_read (row_map 2) (with_blocks wide_map_blocks st1) = Some st2 ∧
    tile_designation (row_map 2) (blocks st2) (tile 16 0 0) = Some df.Channel ∧
    ¬ ∃ i, in_group (cm_groups (manager st2)) (tile 16 0 0) i.
Proof.
  eexists _, _. split; [vm_compute; reflexivity|].
  split; [vm_compute; reflexivity|].
  split; [vm_compute; reflexivity|].
  intros (i & g & b & Hg & _). vm_compute in Hg. by destruct i.
Qed.



Lemma same_plugin_state_trans st1 st2 st3 :
  same_plugin_state st1 st2 → same_plugin_state st2 st3 → same_plugin_state st1 st3.
Proof. unfold same_plugin_state. intros (?&?&?&?) (?&?&?&?). split_and!; congruence. Qed.





(** Events that are no eligible priority overlay leave the state alone. *)
Lemma safety_events_skip env b lx ly tile group events st :
  existsb (eligible lx ly) events = false →
  safety_events env b lx ly tile group events st = Some st.
Proof.
  induction events as [|[priority|c] events IH]; simpl; intros He; try done.
  - apply orb_false_iff in He as [He1 He2]. rewrite He1. by apply IH.
  - by apply IH.
Qed.





Lemma elem_of_removeJob j jl jb :
  jb ∈ removeJob j jl ↔ jb ∈ jl ∧ df.id jb ≠ j.
Proof. unfold removeJob. rewrite list_elem_of_filter. tauto. Qed.



Lemma same_plugin_state_refl st : same_plugin_state st st.
Proof. by unfold same_plugin_state. Qed.

Lemma cancelJob_frame env job st st' :
  cancelJob env job st = Some st' → same_plugin_state st st'.
Proof.
  unfold cancelJob. destruct job as [j|]; [|intros [= <-]; apply same_plugin_state_refl].
  destruct (deref_job (job_list st) j) as [jb|]; [simpl|done].
  destruct (getTileBlock env (df.pos jb)) as [jblock|]; [simpl|done].
  destruct (blocks st !! jblock) as [blk|]; [simpl|done].
  destruct (in_array _ && in_array _); [|done].
  intros [= <-]. by unfold same_plugin_state.
Qed.

Lemma cancel_job_frame env pos st st' :
  cancel_job env pos st = Some st' → same_plugin_state st st'.
Proof.
  unfold cancel_job. destruct (cm_jobs (manager st) !! pos).
  - apply cancelJob_frame.
  - intros [= <-]. apply same_plugin_state_refl.
Qed.

Lemma safety_events_frame env b lx ly tile group events st st' :
  safety_events env b lx ly tile group events st = Some st' →
  same_plugin_state st st'.
Proof.
  revert st. induction events as [|[priority|c] events IH]; simpl; intros st H.
  - inversion H. apply same_plugin_state_refl.
  - destruct (priority lx ly <? 6000)%Z; [|by apply IH].
    destruct (is_group_ready _ group).
    + apply IH in H. eapply same_plugin_state_trans; [|done].
      by unfold same_plugin_state.
    + destruct (cancel_job env tile (mark_unsafe b lx ly st)) as [st1|] eqn:Hc;
        [simpl in H|done].
      apply cancel_job_frame in Hc. apply IH in H.
      eapply same_plugin_state_trans; [|done].
      eapply same_plugin_state_trans; [|done]. by unfold same_plugin_state.
  - by apply IH.
Qed.

Lemma manage_safety_frame env block local tile tile_above st st' :
  manage_safety env block local tile tile_above st = Some st' →
  same_plugin_state st st'.
Proof.
  unfold manage_safety. intros H.
  destruct (find _ tile); [|inversion H; apply same_plugin_state_refl].
  destruct block as [b|]; [simpl in H|done].
  destruct (blocks st !! b); [simpl in H|done].
  destruct (in_array _ && in_array _); [|done].
  by apply safety_events_frame in H.
Qed.


Lemma for_each_frame {A : Type} (body : A → State → option State) (l : list A) :
  (∀ a s s', body a s = Some s' → same_plugin_state s s') →
  ∀ s s', for_each body l s = Some s' → same_plugin_state s s'.
Proof.
  intros Hbody. induction l as [|a l IH]; simpl; intros s s' H.
  - inversion H. apply same_plugin_state_refl.
  - destruct (body a s) as [s1|] eqn:Hb; [simpl in H|done].
    eapply same_plugin_state_trans; [by eapply Hbody | by apply IH].
Qed.












(** C2, as amended. For a tile that maps to a group and whose chunk has no
    designation-priority overlay, [manage_safety] skips the tile: the state
    is returned unchanged. *)
Theorem manage_safety_without_priority_skips (env : Maps) (b : nat)
    (blk : df.map_block) (local tile tile_above : df.coord) (group : Group)
    (st : State) :
  find (cm_groups (manager st)) tile = Some group →
  blocks st !! b = Some blk →
  in_array (df.x local) && in_array (df.y local) = true →
  existsb is_priority (df.block_events blk) = false →
  manage_safety env (Some b) local tile tile_above st = Some st.
Proof.
  intros Hfind Hb Hloc Hnone. unfold manage_safety. rewrite Hfind; simpl.
  rewrite Hb; simpl. rewrite Hloc. apply safety_events_skip.
  destruct (existsb (eligible _ _) _) eqn:He; [|done].
  apply existsb_exists in He as (ev & Hin & Hev).
  assert (existsb is_priority (df.block_events blk) = true) as Hp.
  { apply existsb_exists. exists ev. split; [done|]. by destruct ev. }
  congruence.
Qed.



(** C9. Two calls of [manage_safety] that differ only in [tile_above] have
    the same outcome. *)
Theorem manage_safety_ignores_tile_above (env : Maps) (block : option nat)
    (local tile above1 above2 : df.coord) (st : State) :
  manage_safety env block local tile above1 st
  = manage_safety env block local tile above2 st.
Proof. reflexivity. Qed.

(** C4, as amended. For a started job of kind Dig or DigChannel, [onStart]
    evaluates the safety of the job's own tile, in the block of that tile;
    the tile above is only handed over as the argument [manage_safety]
    does not use. *)
Theorem onStart_evaluates_job_tile (env : Maps) (job_ptr : nat) (job : df.job)
    (st : State) (tile_above : df.coord) :
  enabled st = true → isFortressMode env = true → IsValid env = true →
  deref_job (job_list st) job_ptr = Some job →
  df.jtype job = df.Dig ∨ df.jtype job = df.DigChannel →
  onStart env job_ptr st
  = manage_safety env (getTileBlock env (df.pos job)) (local_of (df.pos job))
      (df.pos job) tile_above st.
Proof.
  intros He Hf Hv Hj Hk. unfold onStart. rewrite He, Hf, Hv, Hj. simpl.
  assert (is_dig job || is_channel job = true) as ->; [|done].
  unfold is_dig, is_channel. destruct Hk as [-> | ->]; done.
Qed.

(** C5, as amended. [DigJobs::read] scans the job list once and retains
    exactly the jobs of kind DigChannel, keyed by tile position, the first
    job in list order for a position that several channel jobs share; Dig
    jobs and all other kinds are excluded. *)
Theorem DigJobs_read_keeps_channel_jobs (jl : list df.job) :
  (∀ p, DigJobs_read jl !! p
        = df.id <$> head (filter (λ job, is_channel job = true ∧ df.pos job = p) jl)) ∧
  (∀ p j, DigJobs_read jl !! p = Some j →
          ∃ job, job ∈ jl ∧ df.jtype job = df.DigChannel ∧
                 df.pos job = p ∧ df.id job = j) ∧
  (∀ job, job ∈ jl → df.jtype job = df.DigChannel →
          is_Some (DigJobs_read jl !! df.pos job)) ∧
  (∀ p, (∀ job, job ∈ jl → df.pos job = p → df.jtype job ≠ df.DigChannel) →
        DigJobs_read jl !! p = None).
Proof.
  split_and!.
  - apply DigJobs_read_lookup.
  - intros p j. rewrite DigJobs_read_lookup. intros H.
    destruct (head _) as [job|] eqn:Hhd; [|done]. simpl in H. inversion H; subst.
    apply head_Some_elem_of, list_elem_of_filter in Hhd as ((Hc & Hp) & Hin).
    exists job. split_and!; try done. unfold is_channel in Hc.
    by apply bool_decide_eq_true in Hc.
  - intros job Hin Hk. rewrite DigJobs_read_lookup.
    destruct (filter _ jl) as [|job' l] eqn:Hf; [|by eexists].
    assert (job ∈ filter (λ job0, is_channel job0 = true ∧ df.pos job0 = df.pos job) jl)
      as Hjob.
    { apply list_elem_of_filter. split; [|done]. split; [|done].
      unfold is_channel. by apply bool_decide_eq_true. }
    rewrite Hf in Hjob. by apply elem_of_nil in Hjob.
  - intros p Hno. rewrite DigJobs_read_lookup.
    destruct (filter _ jl) as [|job l] eqn:Hf; [done|].
    assert (job ∈ filter (λ job0, is_channel job0 = true ∧ df.pos job0 = p) jl)
      as Hjob by (rewrite Hf; by left).
    apply list_elem_of_filter in Hjob as ((Hc & Hp) & Hin).
    exfalso. apply (Hno job Hin Hp). unfold is_channel in Hc.
    by apply bool_decide_eq_true in Hc.
Qed.

Lemma find_dig_jobs_keeps (jl : list df.job) (z : Z) (j : nat) :
  (z, j) ∈ find_dig_jobs jl ↔
  ∃ job, job ∈ jl ∧ (df.jtype job = df.Dig ∨ df.jtype job = df.DigChannel) ∧
         df.z (df.pos job) = z ∧ df.id job = j.
Proof.
  unfold find_dig_jobs. rewrite list_elem_of_fmap. split.
  - intros (job & [= -> ->] & (Hk & Hin)%list_elem_of_filter).
    exists job. split_and!; try done. unfold is_dig, is_channel in Hk.
    apply orb_true_iff in Hk as [Hk|Hk]; apply bool_decide_eq_true in Hk; auto.
  - intros (job & Hin & Hk & <- & <-). exists job. split; [done|].
    apply list_elem_of_filter. split; [|done]. unfold is_dig, is_channel.
    destruct Hk as [-> | ->]; done.
Qed.

Lemma overlayless_state_rebuilt :
  GroupData_read (column_map 1) (fresh_state overlayless_blocks [])
  = Some overlayless_state.
Proof. vm_compute. reflexivity. Qed.

Lemma ready_state_rebuilt :
  GroupData_read (column_map 2) (fresh_state ready_blocks [channel_job])
  = Some ready_state.
Proof. vm_compute. reflexivity. Qed.

Lemma blocked_state_rebuilt :
  GroupData_read (column_map 2) (fresh_state blocked_blocks [channel_job])
  = Some blocked_state.
Proof. vm_compute. reflexivity. Qed.

(** C2, counterexample. A tile in a non-empty, ready group whose chunk has
    no designation-priority overlay: [manage_safety] leaves the mark set and
    the chunk flag clear, so the ready outcome was not applied. *)
Lemma manage_safety_skips_overlayless_tile :
  ∃ st' blk',
    find (cm_groups (manager overlayless_state)) (tile 0 0 0)
      = Some {[ (tile 0 0 0, Some 0) ]} ∧
    ({[ (tile 0 0 0, Some 0) ]} : Group) ≠ ∅ ∧
    is_group_ready (cm_groups (manager overlayless_state))
      {[ (tile 0 0 0, Some 0) ]} = true ∧
    manage_safety (column_map 1) (Some 0) (tile 0 0 0) (tile 0 0 0) (tile 0 0 1)
      overlayless_state = Some st' ∧
    blocks st' !! 0 = Some blk' ∧
    df.block_events blk' = [] ∧
    df.dig_marked blk' 0 0 = true ∧ df.designated blk' = false.
Proof.
  eexists _, _. split; [vm_compute; reflexivity|].
  split; [apply non_empty_singleton_L|].
  split; [vm_compute; reflexivity|].
  split; [vm_compute; reflexivity|].
  split; [vm_compute; reflexivity|].
  split_and!; vm_compute; reflexivity.
Qed.

(** The skip on the chunk without overlay. *)
Lemma manage_safety_without_priority_skips_witness :
  manage_safety (column_map 1) (Some 0) (tile 0 0 0) (tile 0 0 0) (tile 0 0 1)
    overlayless_state = Some overlayless_state.
Proof.
  apply (manage_safety_without_priority_skips (column_map 1) 0
           (corner_block (tile 0 0 0) df.Channel true [])
           (tile 0 0 0) (tile 0 0 0) (tile 0 0 1) {[ (tile 0 0 0, Some 0) ]}).
  - vm_compute. reflexivity.
  - vm_compute. reflexivity.
  - vm_compute. reflexivity.
  - vm_compute. reflexivity.
Defined.



(** C4, counterexample. A started channel job whose own tile is in a ready
    group and whose overlying tile is in no group: [onStart] clears the mark
    of the job's tile, whereas evaluating the tile above changes nothing. *)
Lemma onStart_does_not_evaluate_tile_above :
  ∃ st' blk blk',
    df.jtype channel_job = df.DigChannel ∧
    deref_job (job_list ready_state) 7 = Some channel_job ∧
    onStart (column_map 2) 7 ready_state = Some st' ∧
    blocks ready_state !! 0 = Some blk ∧ df.dig_marked blk 0 0 = true ∧
    blocks st' !! 0 = Some blk' ∧ df.dig_marked blk' 0 0 = false ∧
    find (cm_groups (manager ready_state)) (above (df.pos channel_job)) = None ∧
    manage_safety (column_map 2)
      (getTileBlock (column_map 2) (above (df.pos channel_job)))
      (local_of (above (df.pos channel_job))) (above (df.pos channel_job))
      (above (above (df.pos channel_job))) ready_state = Some ready_state ∧
    onStart (column_map 2) 7 ready_state ≠
    manage_safety (column_map 2)
      (getTileBlock (column_map 2) (above (df.pos channel_job)))
      (local_of (above (df.pos channel_job))) (above (df.pos channel_job))
      (above (above (df.pos channel_job))) ready_state.
Proof.
  assert (Habove : manage_safety (column_map 2)
      (getTileBlock (column_map 2) (above (df.pos channel_job)))
      (local_of (above (df.pos channel_job))) (above (df.pos channel_job))
      (above (above (df.pos channel_job))) ready_state = Some ready_state)
    by (vm_compute; reflexivity).
  destruct (onStart (column_map 2) 7 ready_state) as [st'|] eqn:Hstart;
    [|vm_compute in Hstart; discriminate].
  assert (Hm : (blk' ← blocks st' !! 0; Some (df.dig_marked blk' 0 0)) = Some false).
  { assert (Hgen : (st'' ← onStart (column_map 2) 7 ready_state;
                    blk' ← blocks st'' !! 0; Some (df.dig_marked blk' 0 0)) = Some false)
      by (vm_compute; reflexivity).
    by rewrite Hstart in Hgen. }
  destruct (blocks st' !! 0) as [blk'|] eqn:Hblk'; [simpl in Hm|done].
  eexists st', _, blk'. split; [done|]. split; [vm_compute; reflexivity|].
  split; [done|]. split; [vm_compute; reflexivity|]. split; [vm_compute; reflexivity|].
  split; [done|]. split; [congruence|]. split; [vm_compute; reflexivity|].
  split; [done|]. rewrite Habove. intros [= ->].
  vm_compute in Hblk'. inversion Hblk'; subst blk'. vm_compute in Hm. discriminate.
Qed.

(** [onStart] on the channel job of the ready state. *)
Lemma onStart_evaluates_job_tile_witness :
  onStart (column_map 2) 7 ready_state
  = manage_safety (column_map 2) (getTileBlock (column_map 2) (tile 0 0 0))
      (local_of (tile 0 0 0)) (tile 0 0 0) (tile 9 9 9) ready_state.
Proof.
  apply (onStart_evaluates_job_tile (column_map 2) 7 channel_job ready_state
           (tile 9 9 9)).
  - reflexivity.
  - reflexivity.
  - reflexivity.
  - vm_compute. reflexivity.
  - right. reflexivity.
Defined.

(** C5, counterexample. A job list holding one Dig job: the registry built
    by [DigJobs::read] has no entry at the job's position. *)
Lemma DigJobs_read_drops_dig_job :
  df.Job 1 df.Dig (tile 0 0 0) ∈ [df.Job 1 df.Dig (tile 0 0 0)] ∧
  DigJobs_read [df.Job 1 df.Dig (tile 0 0 0)] !! tile 0 0 0 = None.
Proof. split; [by left | vm_compute; reflexivity]. Qed.


Lemma add_keeps_wf gd p blk gd' : wf gd → add p blk gd = Some gd' → wf gd'.
Proof.
  intros Hwf Hadd. destruct (add_wf gd p blk Hwf) as (gd'' & Hadd' & Hwf' & _).
  congruence.
Qed.

Lemma wf_two_groups : wf two_groups.
Proof.
  pose proof two_groups_built as Hb.
  destruct (add (tile 0 0 5) (Some 0) GroupData_empty) as [gd1|] eqn:H1; [|done].
  simpl in Hb. eapply add_keeps_wf; [|exact Hb].
  eapply add_keeps_wf; [apply wf_empty | exact H1].
Qed.

(** The merge of the groups of (0,0,5) and (2,0,5) by (1,0,5). *)
Lemma add_merges_adjacent_groups_witness :
  ∃ gd' h g',
    add (tile 1 0 5) (Some 0) two_groups = Some gd' ∧
    head (adjacent_slots two_groups (tile 1 0 5)) = Some h ∧
    groups gd' !! h = Some g' ∧
    (∀ q, q ∈ g' ↔
          q = (tile 1 0 5, Some 0) ∨
          ∃ i g, i ∈ adjacent_slots two_groups (tile 1 0 5) ∧
                 groups two_groups !! i = Some g ∧ q ∈ g) ∧
    (∀ i, i ∈ adjacent_slots two_groups (tile 1 0 5) → i ≠ h →
          groups gd' !! i = Some ∅ ∧ i ∈ free_spots gd') ∧
    (∀ j, j ∉ adjacent_slots two_groups (tile 1 0 5) →
          groups gd' !! j = groups two_groups !! j) ∧
    tracked_tiles (groups gd') = tracked_tiles (groups two_groups) + 1 ∧
    (∀ q b, (q, b) ∈ g' → groups_map gd' !! q = Some h).
Proof.
  apply (add_merges_adjacent_groups two_groups (tile 1 0 5) (Some 0)).
  - apply wf_two_groups.
  - vm_compute. reflexivity.
  - vm_compute. lia.
Defined.

Lemma row_map_consistent :
  grid_consistent (row_map 2) wide_map_blocks (mkExtents true 2 1 1).
Proof.
  split.
  - intros ix iy iz b Hx Hy Hz. simpl in *.
    assert (iy = 0%Z) as -> by lia. assert (iz = 0%Z) as -> by lia.
    assert (ix = 0%Z ∨ ix = 1%Z) as [-> | ->] by lia.
    + intros [= <-]. eexists. split; [vm_compute; reflexivity | done].
    + intros [= <-]. eexists. split; [vm_compute; reflexivity | done].
  - intros [px py pz] (Hx & Hy & Hz). simpl in *.
    assert (pz = 0%Z) as -> by lia.
    assert (py `div` 16 = 0)%Z as -> by (apply Z.div_small; lia).
    assert (0 ≤ px `div` 16 < 2)%Z.
    { split; [apply Z.div_pos; lia | apply Z.div_lt_upper_bound; lia]. }
    rewrite !bool_decide_eq_true_2 by lia. done.
Qed.

(** The first rebuild on the two-chunk map. *)
Lemma rebuild_partitions_scanned_tiles_witness :
  ∃ st', GroupData_read (row_map 2) (fresh_state wide_map_blocks []) = Some st' ∧
    (∀ p, in_extents (capture (row_map 2) (fb_extents (fresh_state wide_map_blocks []))) p →
          tile_designation (row_map 2) (blocks st') p = Some df.Channel →
          ∃ i, in_group (cm_groups (manager st')) p i ∧
               ∀ j, in_group (cm_groups (manager st')) p j → j = i) ∧
    partitioned (cm_groups (manager st')).
Proof.
  apply (rebuild_partitions_scanned_tiles (row_map 2) (fresh_state wide_map_blocks [])).
  - apply wf_empty.
  - apply row_map_consistent.
Defined.


(** ** Further properties of the component tracker *)

Lemma neighbour_iff_adjacent (p q : df.coord) :
  q ∈ getNeighbours p ↔ adjacent p q.
Proof.
  destruct p as [px py pz], q as [qx qy qz]. unfold adjacent, getNeighbours. simpl.
  rewrite !elem_of_cons, elem_of_nil. split.
  - intros H. repeat destruct H as [H|H]; try done; inversion H; subst;
      (split; [lia | intros [=]; lia]).
  - intros ((-> & Hx & Hy) & Hne).
    assert (qx = px - 1 ∨ qx = px ∨ qx = px + 1)%Z as Hqx by lia.
    assert (qy = py - 1 ∨ qy = py ∨ qy = py + 1)%Z as Hqy by lia.
    destruct Hqx as [-> | [-> | ->]], Hqy as [-> | [-> | ->]]; try tauto.
Qed.

Lemma neighbour_sym (p q : df.coord) : q ∈ getNeighbours p → p ∈ getNeighbours q.
Proof.
  rewrite !neighbour_iff_adjacent. unfold adjacent.
  intros ((Hz & Hx & Hy) & Hne). split; [lia | congruence].
Qed.

Lemma neighbour_same_layer (p q : df.coord) : q ∈ getNeighbours p → df.z q = df.z p.
Proof. rewrite neighbour_iff_adjacent. by intros ((? & _) & _). Qed.

(** X1. [getNeighbours] lists exactly the tiles of the same layer that
    differ from the tile by at most one in x and in y and are not the tile
    itself; the eight entries are pairwise distinct; being a neighbour is
    symmetric. *)
Theorem getNeighbours_adjacent (p : df.coord) :
  (∀ q, q ∈ getNeighbours p ↔ adjacent p q) ∧
  NoDup (getNeighbours p) ∧
  (∀ q, q ∈ getNeighbours p ↔ p ∈ getNeighbours q).
Proof.
  split; [intros q; apply neighbour_iff_adjacent|]. split.
  - destruct p as [px py pz]. unfold getNeighbours.
    repeat (apply NoDup_cons; split;
            [rewrite ?elem_of_cons, elem_of_nil; intros H;
             repeat destruct H as [H|H]; try done; inversion H; lia|]).
    apply NoDup_nil_2.
  - intros q. split; apply neighbour_sym.
Qed.

(** X2. On a consistent tracker, inserting a tile a second time, with
    whatever block, changes nothing. *)
Theorem add_twice_is_add_once (gd gd' : GroupData) (p : df.coord)
    (blk blk' : option nat) :
  wf gd → add p blk gd = Some gd' → add p blk' gd' = Some gd'.
Proof.
  intros Hwf Hadd.
  destruct (add_wf gd p blk Hwf) as (gd'' & Hadd' & _ & [i Hi] & _).
  assert (gd'' = gd') as -> by congruence.
  unfold add. by rewrite Hi.
Qed.

Lemma add_twice_is_add_once_witness :
  ∃ gd', add (tile 1 0 5) (Some 0) two_groups = Some gd' ∧
         add (tile 1 0 5) None gd' = Some gd'.
Proof.
  destruct (add (tile 1 0 5) (Some 0) two_groups) as [gd'|] eqn:Hadd;
    [|vm_compute in Hadd; discriminate].
  exists gd'. split; [done|].
  apply (add_twice_is_add_once two_groups gd' (tile 1 0 5) (Some 0) None).
  - apply wf_two_groups.
  - exact Hadd.
Defined.

(** X3. On a consistent tracker [add] never meets a slot id beyond the
    arena: it has a result, and the result is consistent again (index and
    arena agree, pooled slots are empty). *)
Theorem add_never_leaves_the_arena (gd : GroupData) (p : df.coord)
    (blk : option nat) :
  wf gd → ∃ gd', add p blk gd = Some gd' ∧ wf gd'.
Proof.
  intros Hwf. destruct (add_wf gd p blk Hwf) as (gd' & ? & ? & _). eauto.
Qed.

Lemma add_never_leaves_the_arena_witness :
  ∃ gd', add (tile 1 0 5) (Some 0) two_groups = Some gd' ∧ wf gd'.
Proof.
  apply (add_never_leaves_the_arena two_groups (tile 1 0 5) (Some 0)).
  apply wf_two_groups.
Defined.

Lemma add_dom (gd gd' : GroupData) (p : df.coord) (blk : option nat) :
  wf gd → add p blk gd = Some gd' →
  dom (groups_map gd') = dom (groups_map gd) ∪ {[ p ]}.
Proof.
  intros Hwf Hadd. pose proof Hwf as (W1 & W2 & _).
  destruct (groups_map gd !! p) as [i|] eqn:Hp.
  - unfold add in Hadd. rewrite Hp in Hadd. inversion Hadd; subst gd'.
    apply (elem_of_dom_2 (D := gset df.coord)) in Hp. set_solver.
  - destruct (add_new_tile gd p blk Hwf Hp) as (gd'' & gi & G & Hadd' & Hout).
    assert (gd'' = gd') as -> by congruence.
    destruct Hout as (_ & HG & _ & _ & _ & Hmap & _).
    apply set_eq. intros q.
    rewrite elem_of_union, elem_of_singleton, !elem_of_dom, Hmap.
    destruct (decide (q ∈ _)) as [Hk|Hk].
    + split; [intros _ | by eexists].
      apply elem_of_keys in Hk as (b & [Hb|Hb]%elem_of_union).
      * left. apply HG in Hb as (i & _ & Hb).
        apply lookup_total_elem in Hb as (g & Hg & Hb).
        rewrite (W2 _ _ _ _ Hg Hb). by eexists.
      * apply elem_of_singleton in Hb. inversion Hb. by right.
    + split; [by left|]. intros [Hq | ->]; [done|].
      exfalso. apply Hk, elem_of_keys. exists blk.
      apply elem_of_union_r. by apply elem_of_singleton.
Qed.

(** X4. [add] indexes the inserted tile and neither drops nor adds any
    other tile: the indexed positions afterwards are those before plus the
    inserted one. *)
Theorem add_indexes_exactly_the_new_tile (gd gd' : GroupData) (p : df.coord)
    (blk : option nat) :
  wf gd → add p blk gd = Some gd' →
  dom (groups_map gd') = dom (groups_map gd) ∪ {[ p ]}.
Proof. apply add_dom. Qed.

Lemma add_indexes_exactly_the_new_tile_witness :
  ∃ gd', add (tile 1 0 5) (Some 0) two_groups = Some gd' ∧
         dom (groups_map gd') = dom (groups_map two_groups) ∪ {[ tile 1 0 5 ]}.
Proof.
  destruct (add (tile 1 0 5) (Some 0) two_groups) as [gd'|] eqn:Hadd;
    [|vm_compute in Hadd; discriminate].
  exists gd'. split; [done|].
  apply (add_indexes_exactly_the_new_tile two_groups gd' (tile 1 0 5) (Some 0)).
  - apply wf_two_groups.
  - exact Hadd.
Defined.

(** X5. A tile without indexed neighbour becomes a group of its own: in a
    slot taken from the pool when the pool is not empty (the arena keeps its
    length), in a new slot at the end of the arena otherwise; the index
    gains that one entry and the other slots are untouched. *)
Theorem add_isolated_tile (gd : GroupData) (p : df.coord) (blk : option nat) :
  wf gd → groups_map gd !! p = None → adjacent_slots gd p = [] →
  ∃ gd' i,
    add p blk gd = Some gd' ∧
    groups gd' !! i = Some {[ (p, blk) ]} ∧
    groups_map gd' = <[ p := i ]> (groups_map gd) ∧
    (∀ j, j ≠ i → j < length (groups gd) → groups gd' !! j = groups gd !! j) ∧
    (free_spots gd ≠ ∅ →
       i ∈ free_spots gd ∧ free_spots gd' = free_spots gd ∖ {[ i ]} ∧
       length (groups gd') = length (groups gd)) ∧
    (free_spots gd = ∅ →
       i = length (groups gd) ∧ free_spots gd' = ∅ ∧
       groups gd' = groups gd ++ [ {[ (p, blk) ]} ]).
Proof.
  intros Hwf Hp Hadj. pose proof Hwf as (W1 & W2 & W3).
  pose proof (visit_neighbours_spec gd p Hwf) as Hloop. rewrite Hadj in Hloop.
  unfold add. rewrite Hp, Hloop. simpl. unfold choose_slot; simpl.
  assert (Hidx : ∀ i, refresh_index (elements ((∅ : Group) ∪ {[(p, blk)]})) i
                        (groups_map gd) = <[p := i]> (groups_map gd)).
  { intros i. rewrite union_empty_l_L, elements_singleton.
    unfold refresh_index; simpl. apply insert_delete_eq. }
  destruct (head (elements (free_spots gd))) as [i|] eqn:Ehd; simpl.
  - assert (Hi : i ∈ free_spots gd).
    { apply elem_of_elements. by eapply head_Some_elem_of. }
    pose proof (W3 i Hi) as Hgi. rewrite Hgi; simpl.
    assert (Hilt : i < length (groups gd)) by (by eapply lookup_lt_Some).
    eexists _, i. split; [done|]. simpl. split_and!.
    + rewrite list_lookup_insert_eq by done. by rewrite union_empty_l_L.
    + apply Hidx.
    + intros j Hj _. by rewrite list_lookup_insert_ne.
    + intros _. split_and!; [done | done | by rewrite length_insert].
    + intros He. rewrite He in Hi. by apply not_elem_of_empty in Hi.
  - rewrite lookup_app_r, Nat.sub_diag by done. simpl.
    apply head_None, elements_empty_inv, leibniz_equiv in Ehd.
    eexists _, (length (groups gd)). split; [done|]. simpl. split_and!.
    + rewrite list_lookup_insert_eq by (rewrite length_app; simpl; lia).
      by rewrite union_empty_l_L.
    + apply Hidx.
    + intros j Hj Hlt. rewrite list_lookup_insert_ne by done. by rewrite lookup_app_l.
    + intros Hne. done.
    + intros _. split_and!; [done | done |].
      rewrite insert_app_r_alt, Nat.sub_diag by done. simpl.
      by rewrite union_empty_l_L.
Qed.

Lemma add_isolated_tile_witness :
  ∃ gd' i,
    add (tile 9 9 5) None two_groups = Some gd' ∧
    groups gd' !! i = Some {[ (tile 9 9 5, None) ]} ∧
    groups_map gd' = <[ tile 9 9 5 := i ]> (groups_map two_groups) ∧
    (∀ j, j ≠ i → j < length (groups two_groups) →
          groups gd' !! j = groups two_groups !! j) ∧
    (free_spots two_groups ≠ ∅ →
       i ∈ free_spots two_groups ∧
       free_spots gd' = free_spots two_groups ∖ {[ i ]} ∧
       length (groups gd') = length (groups two_groups)) ∧
    (free_spots two_groups = ∅ →
       i = length (groups two_groups) ∧ free_spots gd' = ∅ ∧
       groups gd' = groups two_groups ++ [ {[ (tile 9 9 5, None) ]} ]).
Proof.
  apply (add_isolated_tile two_groups (tile 9 9 5) None).
  - apply wf_two_groups.
  - vm_compute. reflexivity.
  - vm_compute. reflexivity.
Defined.

Lemma adjacent_slot_member gd p i :
  wf gd → i ∈ adjacent_slots gd p →
  ∃ n b g, n ∈ getNeighbours p ∧ groups_map gd !! n = Some i ∧
           groups gd !! i = Some g ∧ (n, b) ∈ g.
Proof.
  intros (W1 & _) Hi. unfold adjacent_slots in Hi.
  apply list_elem_of_omap in Hi as (n & Hn & Hm).
  destruct (W1 _ _ Hm) as (g & b & Hg & Hin). eauto 10.
Qed.

Lemma add_outcome_members gd p blk gd' gi G q b :
  wf gd → add_outcome gd p blk gd' gi G → (q, b) ∈ G →
  ∃ i g n bn, groups gd !! i = Some g ∧ (q, b) ∈ g ∧ groups_map gd !! q = Some i ∧
              n ∈ getNeighbours p ∧ (n, bn) ∈ g ∧ groups_map gd !! n = Some i.
Proof.
  intros Hwf (_ & HG & _) Hq. pose proof Hwf as (_ & W2 & _).
  apply HG in Hq as (i & Hi & Hq).
  apply lookup_total_elem in Hq as (g & Hg & Hq).
  apply elem_of_list_to_set in Hi.
  destruct (adjacent_slot_member gd p i Hwf Hi) as (n & bn & g' & Hn & Hm & Hg' & Hin).
  assert (g' = g) as -> by congruence.
  exists i, g, n, bn. split_and!; try done. by eapply W2.
Qed.

Lemma add_outcome_other gd p blk gd' gi G j g :
  wf gd → groups_map gd !! p = None → add_outcome gd p blk gd' gi G →
  j ≠ gi → groups gd' !! j = Some g →
  g = ∅ ∨ (groups gd !! j = Some g ∧ ∀ q b, (q, b) ∈ g → (q, b) ∉ G ∧ q ≠ p).
Proof.
  intros Hwf Hp Hout Hne Hg. pose proof Hwf as (W1 & W2 & _).
  pose proof Hout as (_ & HG & Hoth & _).
  destruct (Hoth j Hne) as (Hempty & Hsame).
  destruct (decide (j ∈ (list_to_set (adjacent_slots gd p) : gset nat))) as [HjA|HjA].
  - left. rewrite (Hempty HjA) in Hg. by inversion Hg.
  - right. rewrite (Hsame HjA) in Hg. split; [done|]. intros q b Hq. split.
    + intros HqG.
      destruct (add_outcome_members gd p blk gd' gi G q b Hwf Hout HqG)
        as (i & g' & n & bn & Hg' & Hq' & Hm & Hn & Hin & Hmn).
      pose proof (W2 _ _ _ _ Hg Hq). assert (i = j) as -> by congruence.
      apply HjA, elem_of_list_to_set. unfold adjacent_slots.
      apply list_elem_of_omap. eauto.
    + intros ->. pose proof (W2 _ _ _ _ Hg Hq). congruence.
Qed.

Lemma add_layered gd p blk gd' :
  wf gd → layered gd → add p blk gd = Some gd' → layered gd'.
Proof.
  intros Hwf Hlay Hadd. destruct (groups_map gd !! p) as [i0|] eqn:Hp.
  { unfold add in Hadd. rewrite Hp in Hadd. by inversion Hadd; subst. }
  destruct (add_new_tile gd p blk Hwf Hp) as (gd'' & gi & G & Hadd' & Hout).
  assert (gd'' = gd') as -> by congruence.
  assert (Hz : ∀ q b, (q, b) ∈ G ∪ {[(p, blk)]} → df.z q = df.z p).
  { intros q b [Hq|Hq]%elem_of_union.
    - destruct (add_outcome_members gd p blk gd' gi G q b Hwf Hout Hq)
        as (i & g & n & bn & Hg & Hq' & _ & Hn & Hin & _).
      rewrite (Hlay _ _ _ _ _ _ Hg Hq' Hin). by apply neighbour_same_layer.
    - apply elem_of_singleton in Hq. by inversion Hq. }
  intros i g a c ba bc Hg Ha Hc.
  destruct (decide (i = gi)) as [->|Hne].
  - destruct Hout as (Hgi & _). rewrite Hgi in Hg. inversion Hg; subst g.
    rewrite (Hz _ _ Ha), (Hz _ _ Hc). done.
  - destruct (add_outcome_other gd p blk gd' gi G i g Hwf Hp Hout Hne Hg)
      as [-> | (Hold & _)]; [set_solver|].
    by eapply Hlay.
Qed.

Lemma add_outcome_index gd p blk gd' gi G q :
  add_outcome gd p blk gd' gi G →
  ((∃ b, (q, b) ∈ G ∪ {[(p, blk)]}) ∧ groups_map gd' !! q = Some gi) ∨
  ((¬ ∃ b, (q, b) ∈ G ∪ {[(p, blk)]}) ∧ groups_map gd' !! q = groups_map gd !! q).
Proof.
  intros (_ & _ & _ & _ & _ & Hmap & _). rewrite Hmap.
  destruct (decide (q ∈ _)) as [Hk|Hk].
  - left. split; [by apply elem_of_keys | done].
  - right. split; [by rewrite <- elem_of_keys | done].
Qed.

Lemma add_separated gd p blk gd' :
  wf gd → separated gd → add p blk gd = Some gd' → separated gd'.
Proof.
  intros Hwf Hsep Hadd. destruct (groups_map gd !! p) as [i0|] eqn:Hp.
  { unfold add in Hadd. rewrite Hp in Hadd. by inversion Hadd; subst. }
  destruct (add_new_tile gd p blk Hwf Hp) as (gd'' & gi & G & Hadd' & Hout).
  assert (gd'' = gd') as -> by congruence.
  pose proof Hwf as (W1 & W2 & _). pose proof Hout as (_ & HG & _).
  (* an old neighbour of a member of the host group is in the host group *)
  assert (Hdrag : ∀ a c j, (∃ b, (a, b) ∈ G ∪ {[(p, blk)]}) →
            c ∈ getNeighbours a → groups_map gd !! c = Some j →
            ∃ b, (c, b) ∈ G ∪ {[(p, blk)]}).
  { intros a c j (b & [Ha|Ha]%elem_of_union) Hn Hc.
    - destruct (add_outcome_members gd p blk gd' gi G a b Hwf Hout Ha)
        as (i & g & n & bn & Hg & Ha' & Hma & Hnp & Hin & Hmn).
      assert (i = j) as -> by exact (Hsep a c i j Hma Hc Hn).
      destruct (W1 _ _ Hc) as (g' & bc & Hg' & Hcin).
      assert (g' = g) as -> by congruence.
      exists bc. apply elem_of_union_l, HG. exists j. split.
      + apply elem_of_list_to_set. unfold adjacent_slots.
        apply list_elem_of_omap. eauto.
      + apply lookup_total_elem. eauto.
    - apply elem_of_singleton in Ha. inversion Ha; subst a b.
      destruct (W1 _ _ Hc) as (g' & bc & Hg' & Hcin).
      exists bc. apply elem_of_union_l, HG. exists j. split.
      + apply elem_of_list_to_set. unfold adjacent_slots.
        apply list_elem_of_omap. eauto.
      + apply lookup_total_elem. eauto. }
  intros a c i j Ha Hc Hn.
  destruct (add_outcome_index gd p blk gd' gi G a Hout) as [(Hka & Hma)|(Hka & Hma)],
           (add_outcome_index gd p blk gd' gi G c Hout) as [(Hkc & Hmc)|(Hkc & Hmc)].
  - congruence.
  - exfalso. apply Hkc. rewrite Hmc in Hc. by eapply (Hdrag a c j).
  - exfalso. apply Hka. rewrite Hma in Ha.
    eapply (Hdrag c a i); [done | by apply neighbour_sym | done].
  - rewrite Hma in Ha. rewrite Hmc in Hc. exact (Hsep a c i j Ha Hc Hn).
Qed.

Lemma step_in_mono (g g' : Group) a c :
  g ⊆ g' → rtc (step_in g) a c → rtc (step_in g') a c.
Proof.
  intros Hsub. apply rtc_subrel. intros u v (Hn & b & Hb). split; [done|].
  exists b. by apply Hsub.
Qed.

Lemma add_connected gd p blk gd' :
  wf gd → connected gd → add p blk gd = Some gd' → connected gd'.
Proof.
  intros Hwf Hcon Hadd. destruct (groups_map gd !! p) as [i0|] eqn:Hp.
  { unfold add in Hadd. rewrite Hp in Hadd. by inversion Hadd; subst. }
  destruct (add_new_tile gd p blk Hwf Hp) as (gd'' & gi & G & Hadd' & Hout).
  assert (gd'' = gd') as -> by congruence.
  pose proof Hout as (Hgi & HG & _).
  assert (Hp' : (p, blk) ∈ G ∪ {[(p, blk)]}).
  { apply elem_of_union_r. by apply elem_of_singleton. }
  assert (Hvia : ∀ a b, (a, b) ∈ G ∪ {[(p, blk)]} →
            rtc (step_in (G ∪ {[(p, blk)]})) a p ∧
            rtc (step_in (G ∪ {[(p, blk)]})) p a).
  { intros a b [Ha|Ha]%elem_of_union.
    - destruct (add_outcome_members gd p blk gd' gi G a b Hwf Hout Ha)
        as (i & g & n & bn & Hg & Ha' & Hma & Hnp & Hin & Hmn).
      assert (Hsub : g ⊆ G ∪ {[(p, blk)]}).
      { intros [q bq] Hq. apply elem_of_union_l, HG. exists i. split.
        - apply elem_of_list_to_set. unfold adjacent_slots.
          apply list_elem_of_omap. eauto.
        - apply lookup_total_elem. eauto. }
      split.
      + eapply rtc_r; [eapply step_in_mono; [done | by eapply Hcon]|].
        split; [by apply neighbour_sym | eauto].
      + eapply rtc_l; [|eapply step_in_mono; [done | by eapply Hcon]].
        split; [done|]. exists bn. by apply Hsub.
    - apply elem_of_singleton in Ha. inversion Ha; subst. split; apply rtc_refl. }
  intros i g a c ba bc Hg Ha Hc.
  destruct (decide (i = gi)) as [->|Hne].
  - rewrite Hgi in Hg. inversion Hg; subst g.
    etrans; [apply (Hvia a ba Ha) | apply (Hvia c bc Hc)].
  - destruct (add_outcome_other gd p blk gd' gi G i g Hwf Hp Hout Hne Hg)
      as [-> | (Hold & _)]; [set_solver|].
    by eapply Hcon.
Qed.

Lemma components_empty : components GroupData_empty.
Proof.
  split; [apply wf_empty|]. split_and!.
  - intros i g p q b b' Hg. simpl in Hg. by rewrite lookup_nil in Hg.
  - intros p q i j Hp. simpl in Hp. by rewrite lookup_empty in Hp.
  - intros i g p q b b' Hg. simpl in Hg. by rewrite lookup_nil in Hg.
Qed.

Lemma add_components gd p blk gd' :
  components gd → add p blk gd = Some gd' → components gd'.
Proof.
  intros (Hwf & Hl & Hs & Hc) Hadd. split_and!.
  - by eapply add_keeps_wf.
  - by eapply add_layered.
  - by eapply add_separated.
  - by eapply add_connected.
Qed.

Lemma for_each_inv {A S : Type} (I : S → Prop) (body : A → S → option S)
    (l : list A) :
  (∀ a s s', I s → body a s = Some s' → I s') →
  ∀ s s', I s → for_each body l s = Some s' → I s'.
Proof.
  intros Hbody. induction l as [|a l IH]; simpl; intros s s' Hs Hrun.
  - by inversion Hrun; subst.
  - destruct (body a s) as [s1|] eqn:Hb; [simpl in Hrun|done].
    eapply IH; [|done]. by eapply Hbody.
Qed.

Lemma foreach_tile_components blk b z gd gd' :
  components gd → foreach_tile blk b z gd = Some gd' → components gd'.
Proof.
  unfold foreach_tile. apply for_each_inv. intros lx s s' Hs.
  apply for_each_inv; [|done]. intros ly s0 s1 Hs0.
  destruct (is_channel_designation _); [by apply add_components|].
  by intros [= <-].
Qed.

Lemma foreach_block_components env bs e gd gd' :
  components gd → foreach_block env bs e gd = Some gd' → components gd'.
Proof.
  unfold foreach_block. apply for_each_inv. intros ix s s' Hs.
  apply for_each_inv; [|done]. intros iy s0 s1 Hs0.
  apply for_each_inv; [|done]. intros iz s2 s3 Hs2.
  destruct (getBlock env ix iy iz) as [b|]; [|by intros [= <-]].
  destruct (bs !! b) as [blk|]; [simpl|done].
  by apply foreach_tile_components.
Qed.

Lemma GroupData_read_components env st st' :
  components (cm_groups (manager st)) → GroupData_read env st = Some st' →
  components (cm_groups (manager st')).
Proof.
  intros Hc. unfold GroupData_read.
  destruct (foreach_block env _ _ _) as [gd1|] eqn:H1; [simpl|done].
  destruct (for_each _ (map_to_list _) gd1) as [gd2|] eqn:H2; [simpl|done].
  intros [= <-]. simpl.
  eapply for_each_inv in H2; [done| |by eapply foreach_block_components].
  intros [q j] s s' Hs. simpl.
  destruct (deref_job _ j) as [jb|]; [simpl|done].
  destruct (is_channel jb); [by apply add_components | by intros [= <-]].
Qed.

Lemma components_two_groups : components two_groups.
Proof.
  pose proof two_groups_built as Hb.
  destruct (add (tile 0 0 5) (Some 0) GroupData_empty) as [gd1|] eqn:H1; [|done].
  simpl in Hb. eapply add_components; [|exact Hb].
  eapply add_components; [apply components_empty | exact H1].
Qed.

(** X6. [add] keeps every group on a single layer. *)
Theorem add_keeps_groups_on_one_layer (gd gd' : GroupData) (p : df.coord)
    (blk : option nat) :
  wf gd → layered gd → add p blk gd = Some gd' → layered gd'.
Proof. apply add_layered. Qed.

Lemma add_keeps_groups_on_one_layer_witness :
  ∃ gd', add (tile 1 0 5) (Some 0) two_groups = Some gd' ∧ layered gd'.
Proof.
  destruct (add (tile 1 0 5) (Some 0) two_groups) as [gd'|] eqn:Hadd;
    [|vm_compute in Hadd; discriminate].
  exists gd'. split; [done|].
  apply (add_keeps_groups_on_one_layer two_groups gd' (tile 1 0 5) (Some 0)).
  - apply wf_two_groups.
  - apply components_two_groups.
  - exact Hadd.
Defined.

(** X7. [add] keeps neighbouring indexed tiles in one slot: no two groups
    ever hold 8-adjacent tiles. *)
Theorem add_keeps_neighbours_together (gd gd' : GroupData) (p : df.coord)
    (blk : option nat) :
  wf gd → separated gd → add p blk gd = Some gd' → separated gd'.
Proof. apply add_separated. Qed.

Lemma add_keeps_neighbours_together_witness :
  ∃ gd', add (tile 1 0 5) (Some 0) two_groups = Some gd' ∧ separated gd'.
Proof.
  destruct (add (tile 1 0 5) (Some 0) two_groups) as [gd'|] eqn:Hadd;
    [|vm_compute in Hadd; discriminate].
  exists gd'. split; [done|].
  apply (add_keeps_neighbours_together two_groups gd' (tile 1 0 5) (Some 0)).
  - apply wf_two_groups.
  - apply components_two_groups.
  - exact Hadd.
Defined.

(** X8. [add] keeps every group 8-connected: any two members are joined by
    a chain of neighbouring members. *)
Theorem add_keeps_groups_connected (gd gd' : GroupData) (p : df.coord)
    (blk : option nat) :
  wf gd → connected gd → add p blk gd = Some gd' → connected gd'.
Proof. apply add_connected. Qed.

Lemma add_keeps_groups_connected_witness :
  ∃ gd', add (tile 1 0 5) (Some 0) two_groups = Some gd' ∧ connected gd'.
Proof.
  destruct (add (tile 1 0 5) (Some 0) two_groups) as [gd'|] eqn:Hadd;
    [|vm_compute in Hadd; discriminate].
  exists gd'. split; [done|].
  apply (add_keeps_groups_connected two_groups gd' (tile 1 0 5) (Some 0)).
  - apply wf_two_groups.
  - apply components_two_groups.
  - exact Hadd.
Defined.

(** X9. A rebuild over valid blocks from a tracker whose groups are the
    connected components of its tiles (the empty tracker for one) has a
    result whose groups are again the connected components: consistent,
    one layer each, connected, no two of them adjacent. *)
Theorem rebuild_groups_are_components (env : Maps) (st : State) :
  components (cm_groups (manager st)) →
  blocks_valid env (blocks st) (capture env (fb_extents st)) →
  ∃ st', GroupData_read env st = Some st' ∧
         components (cm_groups (manager st')).
Proof.
  intros Hc Hval.
  destruct (GroupData_read_grows env st (proj1 Hc) Hval) as (st' & Hrun & _).
  exists st'. split; [done|]. by eapply GroupData_read_components.
Qed.

Lemma rebuild_groups_are_components_witness :
  ∃ st', GroupData_read (row_map 2) (fresh_state wide_map_blocks []) = Some st' ∧
         components (cm_groups (manager st')).
Proof.
  apply (rebuild_groups_are_components (row_map 2) (fresh_state wide_map_blocks [])).
  - apply components_empty.
  - apply grid_consistent_valid, row_map_consistent.
Defined.

(** ** Further properties of readiness and the safety gate *)

Lemma is_group_ready_loop_true gd tiles :
  is_group_ready_loop gd tiles = true ↔
  ∀ t, t ∈ tiles → find gd (above t.1) = None ∨ find gd (above t.1) = Some ∅.
Proof.
  induction tiles as [|t tiles IH]; simpl.
  - split; [intros _ t Ht; by apply elem_of_nil in Ht | done].
  - destruct (find gd (above t.1)) as [g|] eqn:Hf.
    + case_bool_decide as Hg; simpl.
      * subst g. rewrite IH. split.
        -- intros H t' [->|Ht']%elem_of_cons; [by right; rewrite Hf | auto].
        -- intros H t' Ht'. apply H. by right.
      * split; [done|]. intros H.
        destruct (H t) as [Hn|Hs]; [by left | rewrite Hf in Hn; done |].
        rewrite Hf in Hs. by inversion Hs.
    + rewrite IH. split.
      * intros H t' [->|Ht']%elem_of_cons; [by left; rewrite Hf | auto].
      * intros H t' Ht'. apply H. by right.
Qed.

Lemma is_group_ready_true (gd : GroupData) (g : Group) :
  is_group_ready gd g = true ↔
  ∀ t : df.coord * option nat,
    t ∈ g → find gd (above t.1) = None ∨ find gd (above t.1) = Some ∅.
Proof.
  unfold is_group_ready. rewrite is_group_ready_loop_true.
  split; intros H t Ht; apply H; by apply elem_of_elements.
Qed.

(** X10. A union of two groups is ready exactly when both are. *)
Theorem is_group_ready_union (gd : GroupData) (g1 g2 : Group) :
  is_group_ready gd (g1 ∪ g2) = is_group_ready gd g1 && is_group_ready gd g2.
Proof.
  apply eq_true_iff_eq. rewrite andb_true_iff, !is_group_ready_true. split.
  - intros H. split; intros t Ht; apply H; set_solver.
  - intros [H1 H2] t [Ht|Ht]%elem_of_union; auto.
Qed.

(** X11. On a consistent tracker a group is ready exactly when no tile
    above one of its members is indexed: an indexed tile is never in an
    empty group. *)
Theorem is_group_ready_consistent (gd : GroupData) (g : Group) :
  wf gd →
  (is_group_ready gd g = true ↔
   ∀ p b, (p, b) ∈ g → groups_map gd !! above p = None).
Proof.
  intros (W1 & _). rewrite is_group_ready_true. split.
  - intros H p b Hin. destruct (H (p, b) Hin) as [Hn|Hs]; simpl in *.
    + unfold find in Hn. destruct (groups_map gd !! above p) as [i|] eqn:Hi; [|done].
      simpl in Hn. destruct (W1 _ _ Hi) as (g' & b' & Hg' & _). congruence.
    + unfold find in Hs. destruct (groups_map gd !! above p) as [i|] eqn:Hi; [|done].
      simpl in Hs. destruct (W1 _ _ Hi) as (g' & b' & Hg' & Hin').
      rewrite Hs in Hg'. inversion Hg'; subst. set_solver.
  - intros H [p b] Hin. left. simpl. unfold find. by rewrite (H p b Hin).
Qed.

Lemma is_group_ready_consistent_witness :
  is_group_ready two_groups {[ (tile 0 0 4, Some 0) ]} = true ↔
  ∀ p b, (p, b) ∈ ({[ (tile 0 0 4, Some 0) ]} : Group) →
         groups_map two_groups !! above p = None.
Proof.
  apply (is_group_ready_consistent two_groups {[ (tile 0 0 4, Some 0) ]}).
  apply wf_two_groups.
Defined.

(** X12. A tile whose priority overlays are all 6000 or more at its local
    position is left untouched by [manage_safety], ready or not. *)
Theorem manage_safety_priority_guard (env : Maps) (b : nat) (blk : df.map_block)
    (local tile tile_above : df.coord) (st : State) :
  blocks st !! b = Some blk →
  in_array (df.x local) && in_array (df.y local) = true →
  (∀ priority, df.designation_priority priority ∈ df.block_events blk →
               (6000 ≤ priority (df.x local) (df.y local))%Z) →
  manage_safety env (Some b) local tile tile_above st = Some st.
Proof.
  intros Hb Hloc Hhigh. unfold manage_safety.
  destruct (find _ tile) as [group|]; [simpl|done].
  rewrite Hb; simpl. rewrite Hloc. apply safety_events_skip.
  destruct (existsb _ _) eqn:He; [|done].
  apply existsb_exists in He as ([priority|c] & Hin & Hev); [|done].
  simpl in Hev. apply Z.ltb_lt in Hev.
  apply list_elem_of_In in Hin. specialize (Hhigh priority Hin). lia.
Qed.

Lemma manage_safety_priority_guard_witness :
  is_group_ready (cm_groups (manager protected_state)) {[ (tile 0 0 0, Some 0) ]}
    = false ∧
  manage_safety (column_map 2) (Some 0) (tile 0 0 0) (tile 0 0 0) (tile 0 0 1)
    protected_state = Some protected_state.
Proof.
  split; [vm_compute; reflexivity|].
  apply (manage_safety_priority_guard (column_map 2) 0
           (corner_block (tile 0 0 0) df.Channel false [priority_overlay 6000])).
  - vm_compute. reflexivity.
  - vm_compute. reflexivity.
  - intros priority Hin. apply list_elem_of_singleton in Hin.
    inversion Hin; subst. lia.
Defined.

(** X13. [manage_safety] never changes the tracker, the job registry, the
    cached extents or the enabled flag; the registry keeps the entry of a
    job it cancelled. *)
Theorem manage_safety_keeps_plugin_state (env : Maps) (block : option nat)
    (local tile tile_above : df.coord) (st st' : State) :
  manage_safety env block local tile tile_above st = Some st' →
  cm_groups (manager st') = cm_groups (manager st) ∧
  cm_jobs (manager st') = cm_jobs (manager st) ∧
  md_extents st' = md_extents st ∧ fb_extents st' = fb_extents st ∧
  enabled st' = enabled st.
Proof.
  intros (He & Hm & Hmd & Hfb)%manage_safety_frame. by rewrite Hm.
Qed.

Lemma manage_safety_keeps_plugin_state_witness :
  ∃ st', manage_safety (column_map 2) (Some 0) (tile 0 0 0) (tile 0 0 0) (tile 0 0 1)
           blocked_state = Some st' ∧
    deref_job (job_list st') 7 = None ∧
    cm_groups (manager st') = cm_groups (manager blocked_state) ∧
    cm_jobs (manager st') = cm_jobs (manager blocked_state) ∧
    md_extents st' = md_extents blocked_state ∧
    fb_extents st' = fb_extents blocked_state ∧
    enabled st' = enabled blocked_state.
Proof.
  destruct (manage_safety (column_map 2) (Some 0) (tile 0 0 0) (tile 0 0 0)
              (tile 0 0 1) blocked_state) as [st'|] eqn:Hrun;
    [|vm_compute in Hrun; discriminate].
  exists st'. split; [done|]. split.
  - assert (Hgen : (s ← manage_safety (column_map 2) (Some 0) (tile 0 0 0)
                          (tile 0 0 0) (tile 0 0 1) blocked_state;
                    Some (deref_job (job_list s) 7)) = Some None)
      by (vm_compute; reflexivity).
    rewrite Hrun in Hgen. by inversion Hgen.
  - exact (manage_safety_keeps_plugin_state (column_map 2) (Some 0) (tile 0 0 0)
             (tile 0 0 0) (tile 0 0 1) blocked_state st' Hrun).
Defined.

Lemma protected_state_rebuilt :
  GroupData_read (column_map 2) (fresh_state protected_blocks [])
  = Some protected_state.
Proof. vm_compute. reflexivity. Qed.

(** ** Further properties of the canceller and the registry *)

(** X14. Cancelling a live job keeps every block, with its position, its
    marks, its chunk flag and its events; the only designation written is
    the one at the job's local indices in the block of the job's tile. *)
Theorem cancelJob_only_writes_designation (env : Maps) (j : nat) (jb : df.job)
    (st st' : State) :
  deref_job (job_list st) j = Some jb →
  cancelJob env (Some j) st = Some st' →
  ∀ b blk, blocks st !! b = Some blk →
    ∃ blk', blocks st' !! b = Some blk' ∧
      df.map_pos blk' = df.map_pos blk ∧
      df.dig_marked blk' = df.dig_marked blk ∧
      df.designated blk' = df.designated blk ∧
      df.block_events blk' = df.block_events blk ∧
      ∀ lx ly,
        (getTileBlock env (df.pos jb) = Some b ∧
         lx = to_uint16 (Z.rem (df.x (df.pos jb)) 16) ∧
         ly = to_uint16 (Z.rem (df.y (df.pos jb)) 16)) ∨
        df.designation blk' lx ly = df.designation blk lx ly.
Proof.
  intros Hjb Hrun b blk Hb. unfold cancelJob in Hrun. rewrite Hjb in Hrun.
  simpl in Hrun.
  destruct (getTileBlock env (df.pos jb)) as [jblock|] eqn:Hjblock; [simpl in Hrun|done].
  destruct (blocks st !! jblock) as [jblk|] eqn:Hjblk; [simpl in Hrun|done].
  destruct (in_array _ && in_array _); [|done].
  inversion Hrun; subst st'. simpl.
  destruct (decide (b = jblock)) as [->|Hne].
  - rewrite lookup_insert_eq. assert (jblk = blk) as -> by congruence.
    eexists. split; [done|]. simpl. split_and!; try done.
    intros lx ly. unfold upd2. case_bool_decide as Hxy.
    + left. by destruct Hxy as [-> ->].
    + by right.
  - rewrite lookup_insert_ne by done. exists blk. split_and!; try done.
    intros lx ly. by right.
Qed.

Lemma cancelJob_only_writes_designation_witness :
  ∃ st', cancelJob (column_map 2) (Some 7) blocked_state = Some st' ∧
    ∀ b blk, blocks blocked_state !! b = Some blk →
      ∃ blk', blocks st' !! b = Some blk' ∧
        df.map_pos blk' = df.map_pos blk ∧
        df.dig_marked blk' = df.dig_marked blk ∧
        df.designated blk' = df.designated blk ∧
        df.block_events blk' = df.block_events blk ∧
        ∀ lx ly,
          (getTileBlock (column_map 2) (df.pos channel_job) = Some b ∧
           lx = to_uint16 (Z.rem (df.x (df.pos channel_job)) 16) ∧
           ly = to_uint16 (Z.rem (df.y (df.pos channel_job)) 16)) ∨
          df.designation blk' lx ly = df.designation blk lx ly.
Proof.
  destruct (cancelJob (column_map 2) (Some 7) blocked_state) as [st'|] eqn:Hrun;
    [|vm_compute in Hrun; discriminate].
  exists st'. split; [done|].
  apply (cancelJob_only_writes_designation (column_map 2) 7 channel_job
           blocked_state st').
  - vm_compute. reflexivity.
  - exact Hrun.
Defined.

Lemma head_filter_filter {A : Type} (P Q : A → Prop)
    `{!∀ a, Decision (P a)} `{!∀ a, Decision (Q a)} (l : list A) (a : A) :
  head (filter P l) = Some a → Q a → head (filter P (filter Q l)) = Some a.
Proof.
  intros Hhd Hq. induction l as [|c l IH]; [done|].
  rewrite filter_cons in Hhd. rewrite (filter_cons Q).
  destruct (decide (P c)) as [Hp|Hp].
  - simpl in Hhd. inversion Hhd; subst c.
    rewrite decide_True by done. rewrite filter_cons, decide_True by done. done.
  - destruct (decide (Q c)); [|by apply IH].
    rewrite filter_cons, decide_False by done. by apply IH.
Qed.

(** X16. A registry read after the removal of a job has no entry for the
    removed job and keeps every entry of another job. *)
Theorem registry_rebuilt_after_removal (j : nat) (jl : list df.job) (p : df.coord) :
  DigJobs_read (removeJob j jl) !! p ≠ Some j ∧
  (∀ j', j' ≠ j → DigJobs_read jl !! p = Some j' →
         DigJobs_read (removeJob j jl) !! p = Some j').
Proof.
  rewrite !DigJobs_read_lookup. split.
  - intros H. destruct (head _) as [job|] eqn:Hhd; [|done].
    simpl in H. inversion H; subst.
    apply head_Some_elem_of, list_elem_of_filter in Hhd as (_ & Hin).
    apply elem_of_removeJob in Hin as (_ & Hne). done.
  - intros j' Hne H.
    destruct (head (filter _ jl)) as [job|] eqn:Hhd; [|done].
    simpl in H. inversion H; subst j'. unfold removeJob.
    by rewrite (head_filter_filter _ (λ j0, df.id j0 ≠ j) jl job Hhd Hne).
Qed.

(** X17. [find_dig_jobs] of the pairwise revision emplaces exactly the Dig
    and DigChannel jobs, each under its depth layer; every entry of the
    registry of [DigJobs::read] is among them. *)
Theorem find_dig_jobs_keeps_dig_and_channel (jl : list df.job) :
  (∀ z j, (z, j) ∈ find_dig_jobs jl ↔
          ∃ job, job ∈ jl ∧ (df.jtype job = df.Dig ∨ df.jtype job = df.DigChannel) ∧
                 df.z (df.pos job) = z ∧ df.id job = j) ∧
  (∀ p j, DigJobs_read jl !! p = Some j → (df.z p, j) ∈ find_dig_jobs jl).
Proof.
  split; [intros z j; apply find_dig_jobs_keeps|].
  intros p j. rewrite DigJobs_read_lookup. intros H.
  destruct (head _) as [job|] eqn:Hhd; [|done]. simpl in H. inversion H; subst.
  apply head_Some_elem_of, list_elem_of_filter in Hhd as ((Hc & <-) & Hin).
  apply find_dig_jobs_keeps. exists job. split_and!; try done.
  right. unfold is_channel in Hc. by apply bool_decide_eq_true in Hc.
Qed.

Lemma deref_job_unique (jl : list df.job) (jb : df.job) :
  NoDup (df.id <$> jl) → jb ∈ jl → deref_job jl (df.id jb) = Some jb.
Proof.
  unfold deref_job. induction jl as [|a l IH]; intros Hnd Hin.
  - by apply elem_of_nil in Hin.
  - rewrite fmap_cons in Hnd. apply NoDup_cons in Hnd as (Ha & Hnd).
    apply elem_of_cons in Hin as [->|Hin].
    + by rewrite filter_cons_True.
    + rewrite filter_cons_False; [by apply IH|].
      intros Heq. apply Ha. rewrite Heq. by apply list_elem_of_fmap_2.
Qed.

(** X15. A rebuild over valid blocks, with jobs of distinct addresses,
    leaves the blocks and the job list as they are and puts the tile of
    every DigChannel job into exactly one group, designated or not. *)
Theorem rebuild_indexes_channel_jobs (env : Maps) (st : State) :
  wf (cm_groups (manager st)) →
  blocks_valid env (blocks st) (capture env (fb_extents st)) →
  NoDup (df.id <$> job_list st) →
  ∃ st', GroupData_read env st = Some st' ∧
    blocks st' = blocks st ∧ job_list st' = job_list st ∧
    ∀ job, job ∈ job_list st → df.jtype job = df.DigChannel →
      ∃ i, in_group (cm_groups (manager st')) (df.pos job) i ∧
           ∀ i', in_group (cm_groups (manager st')) (df.pos job) i' → i' = i.
Proof.
  intros Hwf Hval Hnd. unfold GroupData_read.
  destruct (foreach_block_grows env (blocks st) _ _ Hval Hwf)
    as (gd1 & -> & Hwf1 & _ & _). simpl.
  destruct (for_each_covers (λ (entry : df.coord * nat) q, q = entry.1)
    (λ (map_entry : df.coord * nat) gd,
       job ← deref_job (job_list st) map_entry.2;
       if is_channel job then
         add map_entry.1 (getTileBlock env (df.pos job)) gd
       else Some gd)
    (λ q, ∃ job, job ∈ job_list st ∧ df.jtype job = df.DigChannel ∧ df.pos job = q)
    (map_to_list (DigJobs_read (job_list st))) gd1)
    as (gd2 & -> & Hwf2 & _ & Hcov); [| |done|].
  - intros q (job & Hin & Hk & <-).
    assert (job ∈ filter (λ job0, is_channel job0 = true ∧ df.pos job0 = df.pos job)
                    (job_list st)) as Hf.
    { apply list_elem_of_filter. split; [|done]. split; [|done].
      unfold is_channel. by apply bool_decide_eq_true. }
    destruct (filter _ (job_list st)) as [|job0 l] eqn:Ef;
      [by apply elem_of_nil in Hf|].
    exists (df.pos job, df.id job0). split; [|done].
    apply elem_of_map_to_list. by rewrite DigJobs_read_lookup, Ef.
  - intros [p j] Hin%elem_of_map_to_list s Hs. simpl.
    rewrite DigJobs_read_lookup in Hin.
    destruct (head _) as [job0|] eqn:Hhd; [|done]. simpl in Hin.
    inversion Hin; subst j.
    apply head_Some_elem_of, list_elem_of_filter in Hhd as ((Hc & <-) & Hin0).
    rewrite (deref_job_unique _ _ Hnd Hin0). simpl. rewrite Hc.
    destruct (add_grows s (df.pos job0) (getTileBlock env (df.pos job0)) Hs)
      as (s' & ? & ? & ? & ?).
    exists s'. split_and!; try done. by intros q ->.
  - simpl. eexists. split; [done|]. simpl. split_and!; try done.
    intros job Hin Hk. destruct (Hcov (df.pos job)) as [i Hi]; [eauto|].
    pose proof Hwf2 as (W1 & W2 & _).
    destruct (W1 _ _ Hi) as (g & b & Hg & Hp).
    exists i. split; [by exists g, b|].
    intros i' (g' & b' & Hg' & Hp'). pose proof (W2 _ _ _ _ Hg' Hp'). congruence.
Qed.

Lemma rebuild_indexes_channel_jobs_witness :
  ∃ st', GroupData_read (column_map 2) (fresh_state blocked_blocks [channel_job])
         = Some st' ∧
    blocks st' = blocks (fresh_state blocked_blocks [channel_job]) ∧
    job_list st' = job_list (fresh_state blocked_blocks [channel_job]) ∧
    ∀ job, job ∈ job_list (fresh_state blocked_blocks [channel_job]) →
      df.jtype job = df.DigChannel →
      ∃ i, in_group (cm_groups (manager st')) (df.pos job) i ∧
           ∀ i', in_group (cm_groups (manager st')) (df.pos job) i' → i' = i.
Proof.
  apply (rebuild_indexes_channel_jobs (column_map 2)
           (fresh_state blocked_blocks [channel_job])).
  - apply wf_empty.
  - intros ix iy iz b Hx Hy Hz. simpl in *.
    assert (ix = 0%Z) as -> by lia. assert (iy = 0%Z) as -> by lia.
    assert (iz = 0%Z ∨ iz = 1%Z) as [-> | ->] by lia;
      intros [= <-]; vm_compute; by eexists.
  - vm_compute. apply NoDup_singleton.
Defined.

(** ** Properties of [manageNeighbours] and of the rebuild *)

(** X18. [manageNeighbours] changes nothing when none of the eight
    neighbours that are valid positions is indexed, whatever the state of
    the tile itself. *)
Theorem manageNeighbours_idle (isValidTilePos : df.coord → bool) (env : Maps)
    (tile_ : df.coord) (st : State) :
  (∀ n, n ∈ getNeighbours tile_ → isValidTilePos n = true →
        groups_map (cm_groups (manager st)) !! n = None) →
  manageNeighbours isValidTilePos env tile_ st = Some st.
Proof.
  intros Hn. unfold manageNeighbours.
  induction (getNeighbours tile_) as [|n l IH]; [done|]. simpl.
  assert (Hstep : (if isValidTilePos n then
                     manage_safety env (getTileBlock env n) (local_of n) n (above n) st
                   else Some st) = Some st).
  { destruct (isValidTilePos n) eqn:Hv; [|done].
    unfold manage_safety, find. rewrite (Hn n); [done | by left | done]. }
  rewrite Hstep. simpl. apply IH. intros n' Hin. apply Hn. by right.
Qed.

Lemma manageNeighbours_idle_witness :
  manageNeighbours (λ _, true) (column_map 2) (tile 0 0 1) blocked_state
  = Some blocked_state.
Proof.
  apply (manageNeighbours_idle (λ _, true) (column_map 2) (tile 0 0 1) blocked_state).
  intros n Hin _. unfold getNeighbours, tile in Hin. 
  rewrite ?elem_of_cons, elem_of_nil in Hin.
  repeat destruct Hin as [Hin|Hin]; try done; subst n; vm_compute; reflexivity.
Defined.

(** X19. [manageNeighbours] never changes the tracker, the job registry,
    the cached extents or the enabled flag. *)
Theorem manageNeighbours_keeps_plugin_state (isValidTilePos : df.coord → bool)
    (env : Maps) (tile_ : df.coord) (st st' : State) :
  manageNeighbours isValidTilePos env tile_ st = Some st' →
  cm_groups (manager st') = cm_groups (manager st) ∧
  cm_jobs (manager st') = cm_jobs (manager st) ∧
  md_extents st' = md_extents st ∧ fb_extents st' = fb_extents st ∧
  enabled st' = enabled st.
Proof.
  intros Hrun. apply for_each_frame in Hrun as (He & Hm & Hmd & Hfb).
  - by rewrite Hm.
  - intros n s s'. destruct (isValidTilePos n).
    + apply manage_safety_frame.
    + intros [= <-]. apply same_plugin_state_refl.
Qed.

Lemma manageNeighbours_keeps_plugin_state_witness :
  ∃ st', manageNeighbours (λ _, true) (column_map 2) (tile 1 0 0) blocked_state
         = Some st' ∧
    deref_job (job_list st') 7 = None ∧
    cm_groups (manager st') = cm_groups (manager blocked_state) ∧
    cm_jobs (manager st') = cm_jobs (manager blocked_state) ∧
    md_extents st' = md_extents blocked_state ∧
    fb_extents st' = fb_extents blocked_state ∧
    enabled st' = enabled blocked_state.
Proof.
  destruct (manageNeighbours (λ _, true) (column_map 2) (tile 1 0 0) blocked_state)
    as [st'|] eqn:Hrun; [|vm_compute in Hrun; discriminate].
  exists st'. split; [done|]. split.
  - assert (Hgen : (s ← manageNeighbours (λ _, true) (column_map 2) (tile 1 0 0)
                          blocked_state;
                    Some (deref_job (job_list s) 7)) = Some None)
      by (vm_compute; reflexivity).
    rewrite Hrun in Hgen. by inversion Hgen.
  - exact (manageNeighbours_keeps_plugin_state (λ _, true) (column_map 2)
             (tile 1 0 0) blocked_state st' Hrun).
Defined.

Lemma for_each_inv_in {A S : Type} (I : S → Prop) (body : A → S → option S)
    (l : list A) :
  (∀ a s s', a ∈ l → I s → body a s = Some s' → I s') →
  ∀ s s', I s → for_each body l s = Some s' → I s'.
Proof.
  induction l as [|a l IH]; simpl; intros Hbody s s' Hs Hrun.
  - by inversion Hrun; subst.
  - destruct (body a s) as [s1|] eqn:Hb; [simpl in Hrun|done].
    eapply IH; [| |done].
    + intros a' t t' Ha'. apply Hbody. by right.
    + eapply Hbody; [by left | done | done].
Qed.

Lemma add_indexed_only gd gd' p blk q :
  wf gd → add p blk gd = Some gd' → indexed gd' q → indexed gd q ∨ q = p.
Proof.
  intros Hwf Hadd Hq. unfold indexed in *.
  apply (elem_of_dom (D := gset df.coord)) in Hq.
  rewrite (add_dom gd gd' p blk Hwf Hadd) in Hq.
  apply elem_of_union in Hq as [Hq|Hq].
  - left. by apply (elem_of_dom (D := gset df.coord)).
  - right. by apply elem_of_singleton in Hq.
Qed.

Lemma foreach_tile_only blk b z gd gd' (Q : df.coord → Prop) :
  (wf gd ∧ ∀ q, indexed gd q → Q q) →
  (∀ q, block_channels blk z q → Q q) →
  foreach_tile blk b z gd = Some gd' →
  wf gd' ∧ ∀ q, indexed gd' q → Q q.
Proof.
  intros Hgd HQ. unfold foreach_tile.
  apply (for_each_inv_in (λ s, wf s ∧ ∀ q, indexed s q → Q q)); [|done].
  intros lx s s' Hlx%elem_of_seqZ Hs.
  apply (for_each_inv_in (λ s, wf s ∧ ∀ q, indexed s q → Q q)); [|done].
  intros ly s0 s1 Hly%elem_of_seqZ (Hwf0 & Hs0).
  unfold is_channel_designation. case_bool_decide as Hd; [|by intros [= <-]].
  intros Hadd. split; [by eapply add_keeps_wf|].
  intros q Hq. destruct (add_indexed_only _ _ _ _ q Hwf0 Hadd Hq) as [Hold| ->].
  - by apply Hs0.
  - apply HQ. exists lx, ly. split_and!; try done; lia.
Qed.

Lemma foreach_block_only env bs e gd gd' (Q : df.coord → Prop) :
  (wf gd ∧ ∀ q, indexed gd q → Q q) →
  (∀ q, grid_channels env bs e q → Q q) →
  foreach_block env bs e gd = Some gd' →
  wf gd' ∧ ∀ q, indexed gd' q → Q q.
Proof.
  intros Hgd HQ. unfold foreach_block.
  apply (for_each_inv_in (λ s, wf s ∧ ∀ q, indexed s q → Q q)); [|done].
  intros ix s s' Hix%elem_of_seqZ Hs.
  apply (for_each_inv_in (λ s, wf s ∧ ∀ q, indexed s q → Q q)); [|done].
  intros iy s0 s1 Hiy%elem_of_seqZ Hs0.
  apply (for_each_inv_in (λ s, wf s ∧ ∀ q, indexed s q → Q q)); [|done].
  intros iz s2 s3 Hiz%elem_of_reverse%elem_of_seqZ Hs2.
  destruct (getBlock env ix iy iz) as [b|] eqn:Hb; [|by intros [= <-]].
  destruct (bs !! b) as [blk|] eqn:Hblk; [simpl|done].
  apply foreach_tile_only; [done|].
  intros q Hq. apply HQ. exists ix, iy, iz, b, blk. split_and!; try done; lia.
Qed.

(** X20. A rebuild indexes nothing but what was indexed before, the
    Channel designations of the scanned blocks and the tiles of DigChannel
    jobs. *)
Theorem rebuild_tracks_only_channel_tiles (env : Maps) (st st' : State) :
  wf (cm_groups (manager st)) →
  GroupData_read env st = Some st' →
  ∀ q, indexed (cm_groups (manager st')) q →
    indexed (cm_groups (manager st)) q ∨
    grid_channels env (blocks st) (capture env (fb_extents st)) q ∨
    ∃ job, job ∈ job_list st ∧ df.jtype job = df.DigChannel ∧ df.pos job = q.
Proof.
  intros Hwf. unfold GroupData_read.
  destruct (foreach_block env _ _ _) as [gd1|] eqn:H1; [simpl|done].
  destruct (for_each _ (map_to_list _) gd1) as [gd2|] eqn:H2; [simpl|done].
  intros [= <-]. simpl.
  set (Q := λ q, indexed (cm_groups (manager st)) q ∨
    grid_channels env (blocks st) (capture env (fb_extents st)) q ∨
    ∃ job, job ∈ job_list st ∧ df.jtype job = df.DigChannel ∧ df.pos job = q).
  apply (foreach_block_only _ _ _ _ _ Q) in H1 as Hgd1;
    [|split; [done | by left] | intros q Hq; right; by left].
  apply (for_each_inv_in (λ s, wf s ∧ ∀ q, indexed s q → Q q)) in H2;
    [by apply H2 | | done].
  intros [p j] s s' Hin%elem_of_map_to_list (Hs & HsQ). simpl.
  destruct (deref_job _ j) as [jb|]; [simpl|done].
  destruct (is_channel jb); [|by intros [= <-]].
  intros Hadd. split; [by eapply add_keeps_wf|].
  intros q Hq. destruct (add_indexed_only _ _ _ _ q Hs Hadd Hq) as [Hold| ->].
  - by apply HsQ.
  - right. right. rewrite DigJobs_read_lookup in Hin.
    destruct (head _) as [job0|] eqn:Hhd; [|done].
    apply head_Some_elem_of, list_elem_of_filter in Hhd as ((Hc & Hp) & Hin0).
    exists job0. split_and!; try done. unfold is_channel in Hc.
    by apply bool_decide_eq_true in Hc.
Qed.

Lemma rebuild_tracks_only_channel_tiles_witness :
  GroupData_read (column_map 2) (fresh_state blocked_blocks [channel_job])
  = Some blocked_state ∧
  ∀ q, indexed (cm_groups (manager blocked_state)) q →
    indexed (cm_groups (manager (fresh_state blocked_blocks [channel_job]))) q ∨
    grid_channels (column_map 2) (blocks (fresh_state blocked_blocks [channel_job]))
      (capture (column_map 2) (fb_extents (fresh_state blocked_blocks [channel_job]))) q ∨
    ∃ job, job ∈ job_list (fresh_state blocked_blocks [channel_job]) ∧
           df.jtype job = df.DigChannel ∧ df.pos job = q.
Proof.
  split; [apply blocked_state_rebuilt|].
  apply (rebuild_tracks_only_channel_tiles (column_map 2)
           (fresh_state blocked_blocks [channel_job]) blocked_state).
  - apply wf_empty.
  - apply blocked_state_rebuilt.
Defined.
